(** * env-type-generator: a shallow embedding of the generation pipeline

    The development follows the TypeScript sources:
    - [types/index.ts]                 the records [EnvVariable],
                                        [GeneratorConfig], [GeneratorOptions], ...;
    - [utils/errors.ts]                the error classes;
    - [services/generator-service.ts]  [mergeVariables], [writeFile], [generate];
    - [services/file-watcher.ts]       the [FileWatcher] class.

    The parser and the two generators ([parsers/env-parser.ts],
    [generators/type-generator.ts], [generators/validation-generator.ts]) are
    known through their tests and the specification only; what is needed of
    them is modelled from the specification and marked as such.

    A JavaScript [Map] keeps its entries in insertion order and [set] on a
    key that is present replaces the value without moving the entry, so
    the merge step is modelled over an association list.  The watcher's
    timer table is only looked up, updated and cleared, so it is a [gmap].
    Code that throws is a computation over a store that returns or throws.

    The first part holds the definitions, the second the proofs. *)

From Stdlib Require Import ZArith Ascii String List.
From stdpp Require Import base tactics option list gmap strings.
Import ListNotations.

Local Open Scope string_scope.
Local Open Scope list_scope.

(** ** types/index.ts *)

(** [interface EnvVariable { key: string; value: string; comment?: string }] *)
Record EnvVariable := mkEnvVariable {
  key : string;
  value : string;
  comment : option string
}.

(** ** JavaScript [Map<string, V>] with its iteration order *)

Module JsMap.

Definition t (V : Type) := list (string * V).

Definition empty {V} : t V := [].

(** [m.set(k, v)]: overwrite in place when [k] is present, append otherwise. *)
Fixpoint set {V} (k : string) (v : V) (m : t V) : t V :=
  match m with
  | [] => [(k, v)]
  | (k', v') :: m' =>
      if String.eqb k' k then (k, v) :: m' else (k', v') :: set k v m'
  end.

(** [m.keys()] and [m.values()], in insertion order. *)
Definition keys {V} (m : t V) : list string := map fst m.
Definition values {V} (m : t V) : list V := map snd m.

End JsMap.

(** ** services/generator-service.ts: the merge step *)

(** [[
    private mergeVariables(variableArrays: EnvVariable[][]): EnvVariable[] {
      const merged = new Map<string, EnvVariable>();
      for (const variables of variableArrays) {
        for (const variable of variables) {
          merged.set(variable.key, variable);
        }
      }
      return Array.from(merged.values());
    }
    ]] *)
Definition mergeInto (merged : JsMap.t EnvVariable) (variables : list EnvVariable)
  : JsMap.t EnvVariable :=
  fold_left (fun m variable => JsMap.set (key variable) variable m) variables merged.

Definition mergeVariables (variableArrays : list (list EnvVariable)) : list EnvVariable :=
  JsMap.values (fold_left mergeInto variableArrays JsMap.empty).

(** What the map holds after the records of [l] have been set, in order. *)
Record merged_inv (l : list EnvVariable) (m : JsMap.t EnvVariable) : Prop := {
  inv_nodup : NoDup (JsMap.keys m);
  inv_keyed : ∀ k v, (k, v) ∈ m → key v = k;
  inv_dom : ∀ k, k ∈ JsMap.keys m ↔ k ∈ map key l;
  inv_last : ∀ v, v ∈ JsMap.values m →
                  ∃ pre post, l = pre ++ v :: post ∧ key v ∉ map key post
}.

(** The order in which keys first appear in a sequence of keys: the head,
    then the first appearances of the other keys in the rest. *)
Fixpoint firstAppearance (ks : list string) : list string :=
  match ks with
  | [] => []
  | k :: ks' => k :: filter (fun k' => k' <> k) (firstAppearance ks')
  end.

(** ** utils/errors.ts *)

(** The error classes.  [BaseError] is JavaScript's own [Error]; every
    class of the package extends [EnvTypeGeneratorError]. *)
Inductive ErrorClass :=
| BaseError
| EnvTypeGeneratorError
| FileNotFoundError
| ParseError
| ValidationError
| GenerationError.

#[global] Instance ErrorClass_eq_dec : EqDecision ErrorClass.
Proof. solve_decision. Defined.

Record JsError := mkJsError {
  errorClass : ErrorClass;
  message : string
}.

Definition new_Error (msg : string) : JsError :=
  mkJsError BaseError msg.
Definition new_EnvTypeGeneratorError (msg : string) : JsError :=
  mkJsError EnvTypeGeneratorError msg.
Definition new_FileNotFoundError (filePath : string) : JsError :=
  mkJsError FileNotFoundError ("Environment file not found: " +:+ filePath).
Definition new_ParseError (filePath reason : string) : JsError :=
  mkJsError ParseError ("Failed to parse " +:+ filePath +:+ ": " +:+ reason).
Definition new_ValidationError (msg : string) : JsError :=
  mkJsError ValidationError ("Validation failed: " +:+ msg).
Definition new_GenerationError (msg : string) : JsError :=
  mkJsError GenerationError ("Type generation failed: " +:+ msg).

(** [e instanceof C], along the [extends] chain. *)
Definition instanceOf (e : JsError) (C : ErrorClass) : bool :=
  match C, errorClass e with
  | BaseError, _ => true
  | EnvTypeGeneratorError, BaseError => false
  | EnvTypeGeneratorError, _ => true
  | C, c => bool_decide (C = c)
  end.

(** ** Calls that may throw, over a mutable store *)

Inductive Result (A : Type) :=
| Ok (a : A)
| Throw (e : JsError).
Arguments Ok {A} a.
Arguments Throw {A} e.

Module Eff.

(** A computation reads and updates a store [S] and either returns or
    throws; what it did to the store before throwing stays done. *)
Definition M (S A : Type) : Type := S → Result A * S.

Definition ret {S A} (a : A) : M S A := λ s, (Ok a, s).
Definition throw {S A} (e : JsError) : M S A := λ s, (Throw e, s).
Definition bind {S A B} (c : M S A) (k : A → M S B) : M S B :=
  λ s, match c s with
       | (Ok a, s') => k a s'
       | (Throw e, s') => (Throw e, s')
       end.
(** [try { c } catch (error) { h error }] *)
Definition try_catch {S A} (c : M S A) (h : JsError → M S A) : M S A :=
  λ s, match c s with
       | (Ok a, s') => (Ok a, s')
       | (Throw e, s') => h e s'
       end.
(** A read of the store that may throw. *)
Definition inspect {S A} (f : S → Result A) : M S A := λ s, (f s, s).
Definition when {S} (b : bool) (c : M S unit) : M S unit :=
  if b then c else ret tt.

(** [xs.map(f)] where [f] may throw: left to right, stopping at the first throw. *)
Fixpoint mapM {S A B} (f : A → M S B) (xs : list A) : M S (list B) :=
  match xs with
  | [] => ret []
  | x :: xs' => bind (f x) (λ y, bind (mapM f xs') (λ ys, ret (y :: ys)))
  end.

End Eff.

(** stdpp's monad notations: [x ← c; k] and [c;; k]. *)
#[global] Instance M_ret {S} : MRet (Eff.M S) := λ A, Eff.ret.
#[global] Instance M_bind {S} : MBind (Eff.M S) := λ A B k c, Eff.bind c k.

(** ** types/index.ts, continued *)

Record ParsedEnvFile := mkParsedEnvFile {
  variables : list EnvVariable;
  filePath : string
}.

(** Optional fields ([f?: T]) are [option]s; [validationLib] is a string at
    run time, whatever its declared union type. *)
Record GeneratorConfig := mkGeneratorConfig {
  envFiles : list string;
  outputPath : string;
  cfg_validationLib : option string;
  validationOutput : option string;
  cfg_requiredVars : option (list string);
  cfg_parseTypes : option bool;
  cfg_strict : option bool;
  cfg_watch : option bool
}.

Record TypeInfo := mkTypeInfo {
  ti_name : string;
  ti_type : string;
  ti_required : bool;
  ti_parsed : bool;
  ti_comment : option string
}.

Record ParserOptions := mkParserOptions {
  po_parseTypes : option bool;
  po_requiredVars : option (list string)
}.

Record GeneratorOptions := mkGeneratorOptions {
  parseTypes : bool;
  validationLib : string;
  requiredVars : list string;
  strict : bool
}.

(** ** Characters *)

Module Chars.

Definition code (c : ascii) : N := N_of_ascii c.

Definition quote : ascii := "034"%char.
Definition backslash : ascii := "092"%char.

Definition isDigit (c : ascii) : bool := (48 <=? code c)%N && (code c <=? 57)%N.
Definition isUpper (c : ascii) : bool := (65 <=? code c)%N && (code c <=? 90)%N.
Definition isHexDigit (c : ascii) : bool :=
  isDigit c
  || ((65 <=? code c)%N && (code c <=? 70)%N)
  || ((97 <=? code c)%N && (code c <=? 102)%N).
(** JSON white space: space, tab, line feed, carriage return. *)
Definition isJsonSpace (c : ascii) : bool :=
  (code c =? 32)%N || (code c =? 9)%N || (code c =? 10)%N || (code c =? 13)%N.
Definition isControl (c : ascii) : bool := (code c <? 32)%N.

Definition toLower (c : ascii) : ascii :=
  if isUpper c then ascii_of_N (code c + 32) else c.

(** [s.toLowerCase()] on the letters A-Z. *)
Fixpoint toLowerCase (s : string) : string :=
  match s with
  | EmptyString => EmptyString
  | String c s' => String (toLower c) (toLowerCase s')
  end.

End Chars.

(** ** The JavaScript runtime's [JSON.parse], as a recogniser

    [JSON.parse(text)] throws exactly when [text] is not a JSON text.  The
    recogniser reads the text once, left to right, with a stack of the
    arrays and objects that are open. *)

Module Json.

Import Chars.

Inductive Container := InArray | InObject.

Inductive NumState :=
| NMinus       (* after the sign *)
| NZero        (* a single leading 0 *)
| NInt         (* digits of the integer part *)
| NDot         (* after the point *)
| NFrac        (* digits of the fraction *)
| NExp         (* after e or E *)
| NExpSign     (* after the sign of the exponent *)
| NExpDigits.  (* digits of the exponent *)

Definition numAccepting (st : NumState) : bool :=
  match st with
  | NZero | NInt | NFrac | NExpDigits => true
  | _ => false
  end.

Inductive Mode :=
| Value                          (* a value must follow *)
| ValueOrClose                   (* just after [ *)
| KeyOrClose                     (* just after { *)
| Key                            (* after a comma inside an object *)
| Colon                          (* after a key *)
| Str (isKey : bool)             (* inside a string *)
| StrEsc (isKey : bool)          (* after a backslash *)
| StrHex (isKey : bool) (n : nat)  (* S n hex digits still to come *)
| Num (st : NumState)
| Lit (rest : list ascii)        (* the rest of true, false or null *)
| After                          (* a value has just been completed *)
| Fail.

Definition State : Type := list Container * Mode.

Definition beginValue (stack : list Container) (stay : Mode) (c : ascii) : State :=
  if isJsonSpace c then (stack, stay)
  else if Ascii.eqb c "{" then (InObject :: stack, KeyOrClose)
  else if Ascii.eqb c "[" then (InArray :: stack, ValueOrClose)
  else if Ascii.eqb c quote then (stack, Str false)
  else if Ascii.eqb c "-" then (stack, Num NMinus)
  else if Ascii.eqb c "0" then (stack, Num NZero)
  else if isDigit c then (stack, Num NInt)
  else if Ascii.eqb c "t" then (stack, Lit ["r"; "u"; "e"]%char)
  else if Ascii.eqb c "f" then (stack, Lit ["a"; "l"; "s"; "e"]%char)
  else if Ascii.eqb c "n" then (stack, Lit ["u"; "l"; "l"]%char)
  else (stack, Fail).

Definition afterValue (stack : list Container) (c : ascii) : State :=
  if isJsonSpace c then (stack, After)
  else if Ascii.eqb c "," then
    match stack with
    | InArray :: _ => (stack, Value)
    | InObject :: _ => (stack, Key)
    | [] => (stack, Fail)
    end
  else if Ascii.eqb c "]" then
    match stack with
    | InArray :: stack' => (stack', After)
    | _ => (stack, Fail)
    end
  else if Ascii.eqb c "}" then
    match stack with
    | InObject :: stack' => (stack', After)
    | _ => (stack, Fail)
    end
  else (stack, Fail).

Definition numStep (st : NumState) (c : ascii) : option NumState :=
  let e := Ascii.eqb c "e" || Ascii.eqb c "E" in
  match st with
  | NMinus => if Ascii.eqb c "0" then Some NZero
              else if isDigit c then Some NInt else None
  | NZero => if Ascii.eqb c "." then Some NDot
             else if e then Some NExp else None
  | NInt => if isDigit c then Some NInt
            else if Ascii.eqb c "." then Some NDot
            else if e then Some NExp else None
  | NDot => if isDigit c then Some NFrac else None
  | NFrac => if isDigit c then Some NFrac
             else if e then Some NExp else None
  | NExp => if isDigit c then Some NExpDigits
            else if Ascii.eqb c "+" || Ascii.eqb c "-" then Some NExpSign else None
  | NExpSign => if isDigit c then Some NExpDigits else None
  | NExpDigits => if isDigit c then Some NExpDigits else None
  end.

Definition step (s : State) (c : ascii) : State :=
  let '(stack, mode) := s in
  match mode with
  | Value => beginValue stack Value c
  | ValueOrClose =>
      if Ascii.eqb c "]" then afterValue stack c else beginValue stack ValueOrClose c
  | KeyOrClose =>
      if isJsonSpace c then (stack, KeyOrClose)
      else if Ascii.eqb c quote then (stack, Str true)
      else if Ascii.eqb c "}" then afterValue stack c
      else (stack, Fail)
  | Key =>
      if isJsonSpace c then (stack, Key)
      else if Ascii.eqb c quote then (stack, Str true)
      else (stack, Fail)
  | Colon =>
      if isJsonSpace c then (stack, Colon)
      else if Ascii.eqb c ":" then (stack, Value)
      else (stack, Fail)
  | Str k =>
      if Ascii.eqb c quote then (stack, if k then Colon else After)
      else if Ascii.eqb c backslash then (stack, StrEsc k)
      else if isControl c then (stack, Fail)
      else (stack, Str k)
  | StrEsc k =>
      if Ascii.eqb c "u" then (stack, StrHex k 3)
      else if Ascii.eqb c quote || Ascii.eqb c backslash || Ascii.eqb c "/"
              || Ascii.eqb c "b" || Ascii.eqb c "f" || Ascii.eqb c "n"
              || Ascii.eqb c "r" || Ascii.eqb c "t"
      then (stack, Str k)
      else (stack, Fail)
  | StrHex k n =>
      if isHexDigit c then
        match n with
        | 0 => (stack, Str k)
        | S n' => (stack, StrHex k n')
        end
      else (stack, Fail)
  | Num st =>
      match numStep st c with
      | Some st' => (stack, Num st')
      | None => if numAccepting st then afterValue stack c else (stack, Fail)
      end
  | Lit rest =>
      match rest with
      | x :: rest' =>
          if Ascii.eqb c x
          then (stack, match rest' with [] => After | _ => Lit rest' end)
          else (stack, Fail)
      | [] => (stack, Fail)
      end
  | After => afterValue stack c
  | Fail => (stack, Fail)
  end.

Definition run (text : string) : State :=
  fold_left step (list_ascii_of_string text) ([], Value).

(** [JSON.parse(text)] returns (does not throw). *)
Definition parses (text : string) : bool :=
  match run text with
  | ([], After) => true
  | ([], Num st) => numAccepting st
  | _ => false
  end.

(** The first character that is not white space. *)
Fixpoint firstSignificant (cs : list ascii) : option ascii :=
  match cs with
  | [] => None
  | c :: cs' => if isJsonSpace c then firstSignificant cs' else Some c
  end.

(** [JSON.parse(text)] returns an array or an object. *)
Definition parsesToStructure (text : string) : bool :=
  match firstSignificant (list_ascii_of_string text) with
  | Some c => (Ascii.eqb c "{" || Ascii.eqb c "[") && parses text
  | None => false
  end.

End Json.

(** ** What the package calls but does not define: Node's [fs] and [path] *)

Class Node := {
  Disk : Type;
  path_resolve : string → string;
  path_dirname : string → string;
  fs_existsSync : string → Disk → bool;
  fs_readFileSync : string → Disk → Result string;
  (** [fs.mkdirSync(dir, { recursive: true })] *)
  fs_mkdirSync : string → Eff.M Disk unit;
  fs_writeFileSync : string → string → Eff.M Disk unit
}.

(** ** Functions of the package taken as parameters

    Their text is not among the sources and no statement below depends on
    what they return: the line parser and value decoder of [EnvParser], the
    runtime-accessor generator of [TypeGenerator], the three dialect
    generators of [ValidationGenerator] and the reason text of its error. *)

Class Unavailable := {
  parseContent : string → list EnvVariable;
  generateRuntimeHelper : list EnvVariable → GeneratorOptions → string;
  generateZodSchema : list EnvVariable → GeneratorOptions → string;
  generateYupSchema : list EnvVariable → GeneratorOptions → string;
  generateJoiSchema : list EnvVariable → GeneratorOptions → string;
  unsupportedLibraryReason : string → string
}.

(** ** parsers/env-parser.ts *)

Module EnvParser.

Import Chars.

Inductive InferredType := TString | TNumber | TBoolean | TObject.

#[global] Instance InferredType_eq_dec : EqDecision InferredType.
Proof. solve_decision. Defined.

(** Modelled from the spec: the four type tags of section 3, with the
    strings that the tests of [inferType] expect. *)
Definition typeName (t : InferredType) : string :=
  match t with
  | TString => "string"
  | TNumber => "number"
  | TBoolean => "boolean"
  | TObject => "object"
  end.

(** Modelled from the spec: the boolean test of [inferType] (section 4.3),
    ["true"] or ["false"] in any letter case. *)
Definition isBooleanLiteral (v : string) : bool :=
  String.eqb (toLowerCase v) "true" || String.eqb (toLowerCase v) "false".

(** Modelled from the spec: the number test of [inferType] (section 4.3),
    in three steps: skipping digits, reading one digit or more, and the
    whole literal. *)
Fixpoint skipDigits (cs : list ascii) : list ascii :=
  match cs with
  | c :: cs' => if isDigit c then skipDigits cs' else cs
  | [] => []
  end.

(** One digit or more; what follows them. *)
Definition digits1 (cs : list ascii) : option (list ascii) :=
  match cs with
  | c :: cs' => if isDigit c then Some (skipDigits cs') else None
  | [] => None
  end.

(** An optional [-], digits, and optionally a point and digits; nothing else. *)
Definition isDecimalLiteral (v : string) : bool :=
  let cs := list_ascii_of_string v in
  let unsigned :=
    match cs with
    | c :: cs' => if Ascii.eqb c "-" then cs' else cs
    | [] => cs
    end in
  match digits1 unsigned with
  | None => false
  | Some [] => true
  | Some (c :: fraction) =>
      Ascii.eqb c "."
      && match digits1 fraction with
         | Some [] => true
         | _ => false
         end
  end.

(** Modelled from the spec: [EnvParser.inferType] (section 4.3; the file
    [parsers/env-parser.ts] is not among the sources).  The checks are made
    in the order boolean, number, object, string and the first that
    succeeds decides. *)
Definition inferType (v : string) : InferredType :=
  if isBooleanLiteral v then TBoolean
  else if isDecimalLiteral v then TNumber
  else if Json.parsesToStructure v then TObject
  else TString.

(** The spec's words for a boolean: the word in any letter case. *)
Definition toUpper (c : ascii) : ascii :=
  if (97 <=? code c)%N && (code c <=? 122)%N then ascii_of_N (code c - 32) else c.

Fixpoint caseVariants (word : string) : list string :=
  match word with
  | EmptyString => [EmptyString]
  | String c word' =>
      map (String c) (caseVariants word')
      ++ map (String (toUpper c)) (caseVariants word')
  end.

(** The spec's words for a number: an optional leading [-], digits, and
    optionally one [.] followed by digits. *)
Definition decimalText (negative : bool) (int : list ascii)
    (fraction : option (list ascii)) : string :=
  string_of_list_ascii
    ((if negative then ["-"%char] else [])
     ++ int
     ++ match fraction with
        | Some f => "."%char :: f
        | None => []
        end).

Definition allDigits (cs : list ascii) : Prop :=
  cs ≠ [] ∧ Forall (λ c, isDigit c = true) cs.

Definition decimalShape (v : string) : Prop :=
  ∃ negative int fraction,
    v = decimalText negative int fraction ∧
    allDigits int ∧
    ∀ f, fraction = Some f → allDigits f.

(** What follows the digits does not start with a digit. *)
Definition noLeadingDigit (cs : list ascii) : Prop :=
  match cs with
  | [] => True
  | c :: _ => isDigit c = false
  end.

(** Texts with double quotes, for the examples. *)
Definition quoted (s : string) : string := String quote (s +:+ String quote "").
Definition keyValueObject (k v : string) : string :=
  "{" +:+ quoted k +:+ ":" +:+ quoted v +:+ "}".

Definition inferTypeSamples : list (string * InferredType) :=
  [ ("true", TBoolean); ("false", TBoolean); ("TRUE", TBoolean); ("FALSE", TBoolean);
    ("42", TNumber); ("3.14", TNumber); ("-100", TNumber); ("-5.5", TNumber);
    (keyValueObject "k" "v", TObject); (keyValueObject "key" "value", TObject);
    ("[1,2,3]", TObject);
    ("{invalid}", TString); ("[invalid]", TString);
    ("hello", TString); ("postgresql://localhost", TString);
    ("+5", TString); ("1e5", TString); ("1.", TString); (".5", TString) ].

Section Files.
Context `{Node} `{Unavailable}.

(** Modelled from the spec: [EnvParser.parseFile] (section 4.4): the path is
    resolved; a path that does not exist fails with [FileNotFoundError];
    otherwise the text is read and parsed into the file's variables. *)
Definition parseFile (file : string) (options : ParserOptions)
  : Eff.M Disk ParsedEnvFile :=
  let absolutePath := path_resolve file in
  found ← Eff.inspect (λ d, Ok (fs_existsSync absolutePath d));
  if negb found then Eff.throw (new_FileNotFoundError file)
  else
    content ← Eff.inspect (fs_readFileSync absolutePath);
    mret (mkParsedEnvFile (parseContent content) absolutePath).

(** Modelled from the spec: [EnvParser.parseFiles] (sections 4.4 and 5):
    the files are parsed one by one in the order given; the first failure
    ends the call. *)
Definition parseFiles (files : list string) (options : ParserOptions)
  : Eff.M Disk (list ParsedEnvFile) :=
  Eff.mapM (λ file, parseFile file options) files.

(** A file that is there and can be read. *)
Definition readable (d : Disk) (file : string) : Prop :=
  fs_existsSync (path_resolve file) d = true ∧
  ∃ content, fs_readFileSync (path_resolve file) d = Ok content.

End Files.

End EnvParser.

(** ** generators/type-generator.ts *)

Module TypeGenerator.

Definition newline : string := String "010" "".

(** [lines.join('\n')] *)
Definition joinLines (lines : list string) : string := String.concat newline lines.

(** Modelled from the spec: the pieces of [TypeGenerator.generateTypes]
    (section 4.6): [required = strict OR key ∈ requiredVars]; the type text
    ([string] unless [parseTypes], else the inferred tag); the [TypeInfo] of
    a variable; its documentation line; its two declaration lines. *)
Definition isRequired (options : GeneratorOptions) (k : string) : bool :=
  strict options || bool_decide (k ∈ requiredVars options).

Definition declaredType (options : GeneratorOptions) (v : EnvVariable) : string :=
  if parseTypes options then EnvParser.typeName (EnvParser.inferType (value v))
  else "string".

Definition typeInfo (options : GeneratorOptions) (v : EnvVariable) : TypeInfo :=
  {| ti_name := key v;
     ti_type := declaredType options v;
     ti_required := isRequired options (key v);
     ti_parsed := parseTypes options;
     ti_comment := comment v |}.

(** Modelled from the spec: the documentation line above a declaration,
    when the record has a comment. *)
Definition docLines (ti : TypeInfo) : list string :=
  match ti_comment ti with
  | Some c => ["    /** " +:+ c +:+ " */"]
  | None => []
  end.

(** Modelled from the spec: a member of [interface ProcessEnv], with the
    bare type when required, with the optional marker and the type unioned
    with [undefined] otherwise. *)
Definition processEnvLine (ti : TypeInfo) : string :=
  if ti_required ti
  then "    " +:+ ti_name ti +:+ ": " +:+ ti_type ti +:+ ";"
  else "    " +:+ ti_name ti +:+ "?: " +:+ ti_type ti +:+ " | undefined;".

(** Modelled from the spec: a member of the declared [env] accessor object. *)
Definition envLine (ti : TypeInfo) : string :=
  if ti_required ti
  then "  " +:+ ti_name ti +:+ ": " +:+ ti_type ti +:+ ";"
  else "  " +:+ ti_name ti +:+ "?: " +:+ ti_type ti +:+ ";".

(** Modelled from the spec: [TypeGenerator.generateTypes] (section 4.6,
    with the layout of the README and of the tests; the file
    [generators/type-generator.ts] is not among the sources). *)
Definition generateTypes (vars : list EnvVariable) (options : GeneratorOptions) : string :=
  let infos := map (typeInfo options) vars in
  joinLines
    (["declare namespace NodeJS {"; "  interface ProcessEnv {"]
     ++ flat_map (λ ti, docLines ti ++ [processEnvLine ti]) infos
     ++ ["  }"; "}"; ""; "export declare const env: {"]
     ++ map envLine infos
     ++ ["};"; ""]).




End TypeGenerator.

(** ** generators/validation-generator.ts *)

Module ValidationGenerator.

Section Dispatch.
Context `{Unavailable}.

(** Modelled from the spec: [ValidationGenerator.generateSchema] (section
    4.7): the schema text of the dialect asked for, [null] for ['none'],
    [GenerationError] for any other string. *)
Definition generateSchema (vars : list EnvVariable) (lib : string)
    (options : GeneratorOptions) : Result (option string) :=
  if String.eqb lib "zod" then Ok (Some (generateZodSchema vars options))
  else if String.eqb lib "yup" then Ok (Some (generateYupSchema vars options))
  else if String.eqb lib "joi" then Ok (Some (generateJoiSchema vars options))
  else if String.eqb lib "none" then Ok None
  else Throw (new_GenerationError (unsupportedLibraryReason lib)).

End Dispatch.

(** The four strings that name a dialect. *)
Definition recognisedDialects : list string := ["zod"; "yup"; "joi"; "none"].

End ValidationGenerator.

(** ** services/generator-service.ts *)

Module GeneratorService.

Section Service.
Context `{Node} `{Unavailable}.

(** JavaScript truthiness of the values tested by [generate]. *)
Definition truthyString (s : option string) : bool :=
  match s with
  | Some s => negb (String.eqb s "")
  | None => false
  end.
Definition truthyBool (b : option bool) : bool := default false b.

Definition endsWith (suffix s : string) : bool :=
  let n := String.length s in
  let k := String.length suffix in
  (k <=? n)%nat && String.eqb (substring (n - k) k s) suffix.

(** [outputPath.replace(/\.d\.ts$/, '.js')] *)
Definition helperPathOf (output : string) : string :=
  if endsWith ".d.ts" output
  then substring 0 (String.length output - 5) output +:+ ".js"
  else output.

(** [[
    private writeFile(filePath: string, content: string): void {
      try {
        const absolutePath = path.resolve(filePath);
        const directory = path.dirname(absolutePath);
        if (!fs.existsSync(directory)) {
          fs.mkdirSync(directory, { recursive: true });
        }
        fs.writeFileSync(absolutePath, content, 'utf-8');
      } catch (error) {
        throw new GenerationError(`Failed to write file ${filePath}: ${(error as Error).message}`);
      }
    }
    ]] *)
Definition writeFile (file content : string) : Eff.M Disk unit :=
  Eff.try_catch
    (let absolutePath := path_resolve file in
     let directory := path_dirname absolutePath in
     found ← Eff.inspect (λ d, Ok (fs_existsSync directory d));
     Eff.when (negb found) (fs_mkdirSync directory);;
     fs_writeFileSync absolutePath content)
    (λ error,
       Eff.throw (new_GenerationError
                    ("Failed to write file " +:+ file +:+ ": " +:+ message error))).

(** The options built from the configuration, with [??] defaults. *)
Definition generatorOptions (config : GeneratorConfig) : GeneratorOptions :=
  {| parseTypes := default true (cfg_parseTypes config);
     validationLib := default "none" (cfg_validationLib config);
     requiredVars := default [] (cfg_requiredVars config);
     strict := default false (cfg_strict config) |}.

(** [if (config.parseTypes) { ... writeFile(helperPath, runtimeHelper) }] *)
Definition writeRuntimeHelper (config : GeneratorConfig)
    (allVariables : list EnvVariable) (options : GeneratorOptions)
  : Eff.M Disk unit :=
  Eff.when (truthyBool (cfg_parseTypes config))
    (let helperPath := helperPathOf (outputPath config) in
     let runtimeHelper := generateRuntimeHelper allVariables options in
     writeFile helperPath runtimeHelper).

(** [if (config.validationLib && config.validationLib !== 'none'
         && config.validationOutput) { ... }] *)
Definition writeValidationSchema (config : GeneratorConfig)
    (allVariables : list EnvVariable) (options : GeneratorOptions)
  : Eff.M Disk unit :=
  match cfg_validationLib config, validationOutput config with
  | Some lib, Some output =>
      Eff.when (truthyString (Some lib) && negb (String.eqb lib "none")
                && truthyString (Some output))
        (validationSchema ←
           Eff.inspect (λ _, ValidationGenerator.generateSchema allVariables lib options);
         Eff.when (truthyString validationSchema)
           (writeFile output (default "" validationSchema)))
  | _, _ => mret tt
  end.

(** The body of the [try] block of [generate]:
    [[
      const parsedFiles = this.parser.parseFiles(config.envFiles, {
        parseTypes: config.parseTypes,
        requiredVars: config.requiredVars,
      });
      const allVariables = this.mergeVariables(parsedFiles.map((f) => f.variables));
      const options: GeneratorOptions = {
        parseTypes: config.parseTypes ?? true,
        validationLib: config.validationLib ?? 'none',
        requiredVars: config.requiredVars ?? [],
        strict: config.strict ?? false,
      };
      const typeDefinition = this.typeGenerator.generateTypes(allVariables, options);
      this.writeFile(config.outputPath, typeDefinition);
      if (config.parseTypes) { ... }
      if (config.validationLib && ...) { ... }
    ]] *)
Definition generateBody (config : GeneratorConfig) : Eff.M Disk unit :=
  parsedFiles ←
    EnvParser.parseFiles (envFiles config)
      (mkParserOptions (cfg_parseTypes config) (cfg_requiredVars config));
  let allVariables := mergeVariables (map variables parsedFiles) in
  let options := generatorOptions config in
  let typeDefinition := TypeGenerator.generateTypes allVariables options in
  writeFile (outputPath config) typeDefinition;;
  writeRuntimeHelper config allVariables options;;
  writeValidationSchema config allVariables options.

(** [[
    public generate(config: GeneratorConfig): void {
      try { ... } catch (error) {
        throw new GenerationError((error as Error).message);
      }
    }
    ]] *)
Definition generate (config : GeneratorConfig) : Eff.M Disk unit :=
  Eff.try_catch (generateBody config)
    (λ error, Eff.throw (new_GenerationError (message error))).

End Service.

End GeneratorService.

(** ** A host to run the service on: files and directories in memory

    The working directory is [/work]; paths are written without [.] and
    [..] segments, so resolving a relative path prefixes it. *)

Module Memory.

Record MemDisk := mkMemDisk {
  files : gmap string string;
  dirs : gset string
}.

Definition resolve (p : string) : string :=
  match p with
  | String "/" _ => p
  | _ => "/work/" +:+ p
  end.

(** What is left of the reversed path after its last segment and the slash
    before it; [None] when the path has no slash. *)
Fixpoint dropSegment (rev_path : list ascii) : option (list ascii) :=
  match rev_path with
  | [] => None
  | c :: rest => if Ascii.eqb c "/" then Some rest else dropSegment rest
  end.

Definition dirname (p : string) : string :=
  match dropSegment (rev (list_ascii_of_string p)) with
  | None => "."
  | Some [] => "/"
  | Some rest => string_of_list_ascii (rev rest)
  end.

Definition existsSync (p : string) (d : MemDisk) : bool :=
  bool_decide (is_Some (files d !! p)) || bool_decide (p ∈ dirs d).

Definition readFileSync (p : string) (d : MemDisk) : Result string :=
  match files d !! p with
  | Some content => Ok content
  | None => Throw (new_Error ("cannot read " +:+ p))
  end.

Definition mkdirSync (p : string) : Eff.M MemDisk unit :=
  λ d, (Ok tt, mkMemDisk (files d) ({[p]} ∪ dirs d)).

Definition writeFileSync (p content : string) : Eff.M MemDisk unit :=
  λ d, if bool_decide (p ∈ dirs d)
       then (Throw (new_Error ("is a directory: " +:+ p)), d)
       else (Ok tt, mkMemDisk (<[p := content]> (files d)) (dirs d)).

Definition node : Node :=
  {| Disk := MemDisk;
     path_resolve := resolve;
     path_dirname := dirname;
     fs_existsSync := existsSync;
     fs_readFileSync := readFileSync;
     fs_mkdirSync := mkdirSync;
     fs_writeFileSync := writeFileSync |}.

(** An instance for the functions that are not modelled, for runs that do
    not depend on what they return. *)
Definition blank : Unavailable :=
  {| parseContent := λ _, [];
     generateRuntimeHelper := λ _ _, "";
     generateZodSchema := λ _ _, "";
     generateYupSchema := λ _ _, "";
     generateJoiSchema := λ _ _, "";
     unsupportedLibraryReason := λ lib, lib |}.

(** A disk with [/work/.env] and no [/work/.env.local], and a
    configuration that names both. *)
Definition overlayDisk : MemDisk :=
  mkMemDisk {[ "/work/.env" := "KEY=value1" ]} ∅.

Definition overlayConfig : GeneratorConfig :=
  {| envFiles := [".env"; ".env.local"];
     outputPath := "types/env.d.ts";
     cfg_validationLib := None;
     validationOutput := None;
     cfg_requiredVars := None;
     cfg_parseTypes := None;
     cfg_strict := None;
     cfg_watch := None |}.

End Memory.

(** ** services/file-watcher.ts

    The class runs on Node's single-threaded event loop.  Its world is the
    object's two fields, the clock and the armed timers of the loop, and the
    chokidar handles that are open with their [change] listener, the calls
    that are suspended at an [await], and the rejection, if any, that has
    ended the process.  A step of the world is a call by the client, an
    event delivered by chokidar, a timer that has come due, the resumption
    of a suspended call, or the passing of time. *)

Module FileWatcher.

(** Timers ([NodeJS.Timeout]), handles ([chokidar.FSWatcher]) and callbacks
    ([FileChangeCallback]) are named by numbers. *)
Abbreviation TimerId := nat.
Abbreviation HandleId := nat.
Abbreviation Callback := nat.

Record WatcherOptions := mkWatcherOptions {
  files : list string;
  onChanged : Callback;
  debounceMs : option Z
}.

(** What an armed timer will do: the closure of [handleChange]. *)
Record Timeout := mkTimeout {
  due : Z;
  t_path : string;
  t_callback : Callback
}.

(** The [change] listener that [watch] attaches to a handle. *)
Record Listener := mkListener {
  l_paths : list string;
  l_onChanged : Callback;
  l_debounceMs : Z
}.

Inductive Event :=
| Changed (path : string) (time delay : Z)       (* [handleChange] ran *)
| Called (callback : Callback) (path : string) (time : Z)  (* the callback was invoked *)
| Closed (h : HandleId)                          (* [close()] was called on a handle *)
| StopReturned.                                  (* a [stop()] call has completed *)

(** A call of [executeCallback] that is suspended at [await callback(filePath)]. *)
Record Call := mkCall {
  c_callback : Callback;
  c_path : string
}.

Record World := mkWorld {
  (** [private watcher: chokidar.FSWatcher | null] *)
  watcher : option HandleId;
  (** [private debounceTimers: Map<string, NodeJS.Timeout>] *)
  debounceTimers : gmap string TimerId;
  (** the calls of [stop()] that are suspended at
      [await this.watcher.close()]: each has its own continuation *)
  suspended : nat;
  (** the event loop: clock in milliseconds, armed timers *)
  now : Z;
  timeouts : gmap TimerId Timeout;
  nextTimer : TimerId;
  (** chokidar: the handles that are open *)
  listening : gmap HandleId Listener;
  nextHandle : HandleId;
  (** what has happened, newest first *)
  trace : list Event;
  (** the calls of [executeCallback] that are suspended at their [await] *)
  calls : list Call;
  (** the rejection that nobody handled: Node has ended the process *)
  unhandled : option JsError
}.

Definition initial : World := mkWorld None ∅ 0 0 ∅ 0 ∅ 0 [] [] None.

(** A call of [stop()] is suspended at its [await]. *)
Definition stopping (w : World) : bool := negb (suspended w =? 0)%nat.

(** [setTimeout] replaces a delay below 1 or above 2147483647 by 1. *)
Definition timerDelay (ms : Z) : Z :=
  if (1 <=? ms)%Z && (ms <=? 2147483647)%Z then ms else 1%Z.

Section Methods.
Context `{Node}.

(** [[
    public watch(options: WatcherOptions): void {
      const { files, onChanged, debounceMs = 300 } = options;
      if (this.watcher) {
        throw new EnvTypeGeneratorError('Watcher is already running');
      }
      const absolutePaths = files.map((file) => path.resolve(file));
      this.watcher = chokidar.watch(absolutePaths, { ... });
      this.watcher.on('change', (filePath: string) => {
        this.handleChange(filePath, onChanged, debounceMs);
      });
      ...
    }
    ]]
    The [error] listener, which only throws, is left out. *)
Definition watch (options : WatcherOptions) (w : World) : Result unit * World :=
  let ms := default 300%Z (debounceMs options) in
  match watcher w with
  | Some _ => (Throw (new_EnvTypeGeneratorError "Watcher is already running"), w)
  | None =>
      let absolutePaths := map path_resolve (files options) in
      let h := nextHandle w in
      (Ok tt,
       mkWorld (Some h) (debounceTimers w) (suspended w)
         (now w) (timeouts w) (nextTimer w)
         (<[h := mkListener absolutePaths (onChanged options) ms]> (listening w))
         (S h) (trace w) (calls w) (unhandled w))
  end.

End Methods.

(** [clearTimeout(timer)] *)
Definition clearTimeout (timer : TimerId) (armed : gmap TimerId Timeout)
  : gmap TimerId Timeout :=
  delete timer armed.

(** [[
    private handleChange(filePath, callback, debounceMs): void {
      const existingTimer = this.debounceTimers.get(filePath);
      if (existingTimer) {
        clearTimeout(existingTimer);
      }
      const timer = setTimeout(() => { ... }, debounceMs);
      this.debounceTimers.set(filePath, timer);
    }
    ]] *)
Definition handleChange (path : string) (callback : Callback) (ms : Z)
    (w : World) : World :=
  let armed :=
    match debounceTimers w !! path with
    | Some existingTimer => clearTimeout existingTimer (timeouts w)
    | None => timeouts w
    end in
  let timer := nextTimer w in
  mkWorld (watcher w) (<[path := timer]> (debounceTimers w)) (suspended w)
    (now w)
    (<[timer := mkTimeout (now w + timerDelay ms) path callback]> armed)
    (S timer)
    (listening w) (nextHandle w)
    (Changed path (now w) ms :: trace w) (calls w) (unhandled w).

(** [[
    private async executeCallback(callback, filePath): Promise<void> {
      try {
        await callback(filePath);
      } catch (error) { throw new EnvTypeGeneratorError(...); }
    }
    ]]
    [executeCallback] is the call up to the [await]: the callback is
    invoked at once.  [executeCallbackResume] is the rest, run once the
    callback has returned or thrown, or the promise it returned has settled:
    when it failed, the promise of [executeCallback] is rejected with the
    wrapped error.  The timer body has discarded that promise with [void],
    so nobody handles the rejection, and Node ends the process. *)
Definition executeCallback (callback : Callback) (path : string) (w : World)
  : World :=
  mkWorld (watcher w) (debounceTimers w) (suspended w)
    (now w) (timeouts w) (nextTimer w)
    (listening w) (nextHandle w)
    (Called callback path (now w) :: trace w)
    (calls w ++ [mkCall callback path]) (unhandled w).

Definition callbackFailure (path : string) (error : JsError) : JsError :=
  new_EnvTypeGeneratorError
    ("Callback execution failed for " +:+ path +:+ ": " +:+ message error).

Definition executeCallbackResume (i : nat) (outcome : Result unit) (w : World)
  : World :=
  match calls w !! i with
  | None => w
  | Some call =>
      mkWorld (watcher w) (debounceTimers w) (suspended w)
        (now w) (timeouts w) (nextTimer w)
        (listening w) (nextHandle w) (trace w)
        (delete i (calls w))
        match outcome with
        | Ok _ => unhandled w
        | Throw error => Some (callbackFailure (c_path call) error)
        end
  end.

(** The function given to [setTimeout], when timer [timer] runs and leaves
    the loop:
    [[
      () => {
        this.debounceTimers.delete(filePath);
        void this.executeCallback(callback, filePath);
      }
    ]] *)
Definition timeoutBody (timer : TimerId) (t : Timeout) (w : World) : World :=
  executeCallback (t_callback t) (t_path t)
    (mkWorld (watcher w) (delete (t_path t) (debounceTimers w)) (suspended w)
       (now w) (delete timer (timeouts w)) (nextTimer w)
       (listening w) (nextHandle w) (trace w) (calls w) (unhandled w)).

(** [[
      for (const timer of this.debounceTimers.values()) {
        clearTimeout(timer);
      }
      this.debounceTimers.clear();
    ]] *)
Definition clearTimers (w : World) : World :=
  mkWorld (watcher w) ∅ (suspended w)
    (now w)
    (foldr clearTimeout (timeouts w) (map snd (map_to_list (debounceTimers w))))
    (nextTimer w)
    (listening w) (nextHandle w) (trace w) (calls w) (unhandled w).

(** [this.watcher.close()]: the handle stops listening. *)
Definition closeHandle (h : HandleId) (w : World) : World :=
  mkWorld (watcher w) (debounceTimers w) (suspended w)
    (now w) (timeouts w) (nextTimer w)
    (delete h (listening w)) (nextHandle w)
    (Closed h :: trace w) (calls w) (unhandled w).

(** [[
    public async stop(): Promise<void> {
      if (!this.watcher) {
        return;
      }
      // Clear all debounce timers
      ...
      await this.watcher.close();
      this.watcher = null;
    }
    ]]
    [stopBegin] is the call up to the [await]; [stopResume] is the rest,
    run once [close()] has settled.  Every call that reaches the [await] has
    a continuation of its own, which clears the field whatever it holds by
    then. *)
Definition suspend (w : World) : World :=
  mkWorld (watcher w) (debounceTimers w) (S (suspended w))
    (now w) (timeouts w) (nextTimer w)
    (listening w) (nextHandle w) (trace w) (calls w) (unhandled w).

Definition stopBegin (w : World) : World :=
  match watcher w with
  | None =>
      mkWorld (watcher w) (debounceTimers w) (suspended w)
        (now w) (timeouts w) (nextTimer w)
        (listening w) (nextHandle w) (StopReturned :: trace w)
        (calls w) (unhandled w)
  | Some h => suspend (closeHandle h (clearTimers w))
  end.

Definition stopResume (w : World) : World :=
  mkWorld None (debounceTimers w) (pred (suspended w))
    (now w) (timeouts w) (nextTimer w)
    (listening w) (nextHandle w) (StopReturned :: trace w)
    (calls w) (unhandled w).

(** [public isWatching(): boolean { return this.watcher !== null; }] *)
Definition isWatching (w : World) : bool :=
  match watcher w with
  | Some _ => true
  | None => false
  end.

(** *** The steps of the world *)

Inductive Label :=
| DoWatch (options : WatcherOptions)      (* the client calls [watch] *)
| DoStop                                  (* the client calls [stop] *)
| Resume                                  (* [close()] has settled *)
| Change (h : HandleId) (path : string)   (* chokidar emits [change] *)
| Fire (timer : TimerId)                  (* a timer that is due runs *)
| Settle (i : nat) (outcome : Result unit)  (* a callback has returned or thrown *)
| Tick (time : Z).                        (* the clock advances *)

Definition advance (time : Z) (w : World) : World :=
  mkWorld (watcher w) (debounceTimers w) (suspended w)
    time (timeouts w) (nextTimer w)
    (listening w) (nextHandle w) (trace w) (calls w) (unhandled w).

Section Steps.
Context `{Node}.

(** The world after a step of a process that is running, when the step
    can be taken: a handle emits only while it is open, a timer runs only
    when armed and due, the clock does not go back, a call of [stop]
    resumes only when one is suspended, and a callback settles only when
    its call is suspended. *)
Definition step (l : Label) (w : World) : option World :=
  match l with
  | DoWatch options => Some (watch options w).2
  | DoStop => Some (stopBegin w)
  | Resume => if stopping w then Some (stopResume w) else None
  | Change h path =>
      match listening w !! h with
      | Some listener =>
          Some (handleChange path (l_onChanged listener) (l_debounceMs listener) w)
      | None => None
      end
  | Fire timer =>
      match timeouts w !! timer with
      | Some t => if (due t <=? now w)%Z then Some (timeoutBody timer t w) else None
      | None => None
      end
  | Settle i outcome =>
      match calls w !! i with
      | Some _ => Some (executeCallbackResume i outcome w)
      | None => None
      end
  | Tick time => if (now w <=? time)%Z then Some (advance time w) else None
  end.

(** Nothing happens in a process that an unhandled rejection has ended. *)
Definition exec (l : Label) (w : World) : option World :=
  match unhandled w with
  | Some _ => None
  | None => step l w
  end.

(** Every world that the steps can lead to. *)
Inductive reachable : World → Prop :=
| reachable_initial : reachable initial
| reachable_step w l w' :
    reachable w → exec l w = Some w' → reachable w'.

(** The client does not call [stop] again while a call of [stop] is
    suspended: it awaits the promise. *)
Definition awaited (l : Label) (w : World) : Prop :=
  l = DoStop → stopping w = false.

(** The worlds reached when the client awaits [stop]. *)
Inductive orderly : World → Prop :=
| orderly_initial : orderly initial
| orderly_step w l w' :
    orderly w → awaited l w → exec l w = Some w' → orderly w'.

(** A run of such a client from one world to another, labels in order. *)
Inductive runs : World → list Label → World → Prop :=
| runs_nil w : runs w [] w
| runs_cons w l w' ls w'' :
    awaited l w → exec l w = Some w' → runs w' ls w'' → runs w (l :: ls) w''.

(** The steps at which a call of [stop] completes: the call itself when no
    watcher is running, the resumption otherwise. *)
Definition stopReturns (l : Label) (w : World) : Prop :=
  (l = DoStop ∧ watcher w = None) ∨ l = Resume.

(** Running a list of steps of a client that awaits [stop]. *)
Definition awaitedb (l : Label) (w : World) : bool :=
  match l with
  | DoStop => negb (stopping w)
  | _ => true
  end.

Fixpoint execAll (ls : list Label) (w : World) : option World :=
  match ls with
  | [] => Some w
  | l :: ls' =>
      if awaitedb l w then
        match exec l w with
        | Some w' => execAll ls' w'
        | None => None
        end
      else None
  end.

(** Running a list of steps of any client. *)
Fixpoint execList (ls : list Label) (w : World) : option World :=
  match ls with
  | [] => Some w
  | l :: ls' =>
      match exec l w with
      | Some w' => execList ls' w'
      | None => None
      end
  end.

End Steps.

(** A session on the in-memory host: [watch] with the default delay, two
    changes of [/work/.env] 100 ms apart, the timer of the second change
    running 300 ms after it, then [stop] and its resumption. *)
Definition burstOptions : WatcherOptions := mkWatcherOptions [".env"] 7 None.

Definition burstSteps : list Label :=
  [ DoWatch burstOptions;
    Change 0 "/work/.env"; Tick 100; Change 0 "/work/.env";
    Tick 400; Fire 1 ].

Definition burstWorld : World :=
  default initial (@execAll Memory.node burstSteps initial).

Definition stoppedWorld : World :=
  default initial (@execAll Memory.node (burstSteps ++ [DoStop; Resume]) initial).

Definition isCalled (e : Event) : bool :=
  match e with
  | Called _ _ _ => true
  | _ => false
  end.

Definition isDoWatch (l : Label) : bool :=
  match l with
  | DoWatch _ => true
  | _ => false
  end.

(** The clock reading an event was logged with. *)
Definition eventTime (e : Event) : option Z :=
  match e with
  | Changed _ time _ => Some time
  | Called _ _ time => Some time
  | _ => None
  end.

(** An event that concerns a path: a change of it or a callback for it. *)
Definition about (path : string) (e : Event) : Prop :=
  match e with
  | Changed p _ _ => p = path
  | Called _ p _ => p = path
  | _ => False
  end.

(** *** What holds of the worlds that are reached *)

(** An armed timer is the one registered for its path, is older than the
    next timer, and was armed by the latest event about its path. *)
Definition armedOK (registered : gmap string TimerId) (armed : gmap TimerId Timeout)
    (next : TimerId) (tr : list Event) : Prop :=
  ∀ id t, armed !! id = Some t →
    registered !! t_path t = Some id ∧ id < next ∧
    ∃ recent t0 ms older,
      tr = recent ++ Changed (t_path t) t0 ms :: older ∧
      Forall (λ e, ¬ about (t_path t) e) recent ∧
      due t = (t0 + timerDelay ms)%Z.

(** Every callback in the trace follows a change of its path, with nothing
    about the path in between and the delay elapsed. *)
Definition calledOK (tr : list Event) : Prop :=
  ∀ later cb p time older,
    tr = later ++ Called cb p time :: older →
    ∃ recent t0 ms older',
      older = recent ++ Changed p t0 ms :: older' ∧
      Forall (λ e, ¬ about p e) recent ∧
      (t0 + timerDelay ms ≤ time)%Z.

(** The registered timers are older than the next timer. *)
Definition registeredOK (registered : gmap string TimerId) (next : TimerId) : Prop :=
  ∀ p id, registered !! p = Some id → id < next.

Definition timersInv (w : World) : Prop :=
  armedOK (debounceTimers w) (timeouts w) (nextTimer w) (trace w)
  ∧ calledOK (trace w)
  ∧ registeredOK (debounceTimers w) (nextTimer w).

(** The trace is in the order of the clock: an event is not later than the
    events logged after it, and none is later than now. *)
Definition timesOK (clock : Z) (tr : list Event) : Prop :=
  (∀ e t, e ∈ tr → eventTime e = Some t → (t ≤ clock)%Z) ∧
  (∀ later e1 mid e2 older t1 t2,
     tr = later ++ e1 :: mid ++ e2 :: older →
     eventTime e1 = Some t1 → eventTime e2 = Some t2 → (t2 ≤ t1)%Z).

(** For a client that awaits [stop]: an open handle is the running
    watcher's, no timer is armed unless a watcher is running and not being
    stopped, and a suspended [stop] still holds its watcher. *)
Record orderlyInv (w : World) : Prop := {
  open_is_watcher :
    ∀ h l, listening w !! h = Some l → watcher w = Some h ∧ stopping w = false;
  idle_no_timers :
    watcher w = None ∨ stopping w = true → timeouts w = ∅;
  stopping_has_watcher :
    stopping w = true → is_Some (watcher w);
  one_suspended :
    (suspended w ≤ 1)%nat
}.

(** A world in which nothing is running: no watcher, no suspended [stop],
    no timer armed, no handle open. *)
Definition silent (w : World) : Prop :=
  watcher w = None ∧ stopping w = false ∧ timeouts w = ∅ ∧ listening w = ∅.

End FileWatcher.

(** ** services/generator-service.ts: watch mode

    The service owns one [FileWatcher].  Its world is the disk, the world
    of that watcher, and the closures [() => { this.generate(config) }] it
    has handed out as callbacks; a callback is named by its place in that
    list. *)

Module ServiceWatch.

Section Watching.
Context `{Node} `{Unavailable}.

Record Service := mkService {
  disk : Disk;
  fileWatcher : FileWatcher.World;
  closures : list GeneratorConfig
}.

(** [[
    public watch(config: GeneratorConfig): void {
      // Generate initial types
      this.generate(config);
      // Start watching
      this.watcher.watch({
        files: config.envFiles,
        onChanged: () => {
          this.generate(config);
        },
      });
    }
    ]] *)
Definition watch (config : GeneratorConfig) (s : Service) : Result unit * Service :=
  match GeneratorService.generate config (disk s) with
  | (Throw e, d') => (Throw e, mkService d' (fileWatcher s) (closures s))
  | (Ok _, d') =>
      let onChanged := length (closures s) in
      let options :=
        FileWatcher.mkWatcherOptions (envFiles config) onChanged None in
      let '(r, w') := FileWatcher.watch options (fileWatcher s) in
      (r, mkService d' w' (closures s ++ [config]))
  end.

(** [public async stopWatch(): Promise<void> { await this.watcher.stop(); }]:
    the call up to the [await] inside [stop], and its resumption. *)
Definition stopWatchBegin (s : Service) : Service :=
  mkService (disk s) (FileWatcher.stopBegin (fileWatcher s)) (closures s).

Definition stopWatchResume (s : Service) : Service :=
  mkService (disk s) (FileWatcher.stopResume (fileWatcher s)) (closures s).

(** [public isWatching(): boolean { return this.watcher.isWatching(); }] *)
Definition isWatching (s : Service) : bool :=
  FileWatcher.isWatching (fileWatcher s).

End Watching.

End ServiceWatch.

(** ** cli.ts *)

Module Cli.

Section Validate.
Context `{Node}.

Definition validLibs : list string := ["zod"; "yup"; "joi"; "none"].

(** [[
    for (const envFile of config.envFiles) {
      const absolutePath = path.resolve(envFile);
      if (!fs.existsSync(absolutePath)) {
        throw new Error(`Environment file not found: ${envFile}`);
      }
    }
    ]] *)
Fixpoint checkEnvFiles (envFiles : list string) (d : Disk) : Result unit :=
  match envFiles with
  | [] => Ok tt
  | envFile :: rest =>
      if fs_existsSync (path_resolve envFile) d
      then checkEnvFiles rest d
      else Throw (new_Error ("Environment file not found: " +:+ envFile))
  end.

(** [[
    const validLibs: ValidationLibrary[] = ['zod', 'yup', 'joi', 'none'];
    if (config.validationLib && !validLibs.includes(config.validationLib)) {
      throw new Error(
        `Invalid validation library: ${config.validationLib}. Must be one of: ${validLibs.join(', ')}`
      );
    }
    ]] *)
Definition checkValidationLib (lib : option string) : Result unit :=
  match lib with
  | Some lib =>
      if negb (String.eqb lib "") && negb (bool_decide (lib ∈ validLibs))
      then Throw (new_Error ("Invalid validation library: " +:+ lib
                             +:+ ". Must be one of: "
                             +:+ String.concat ", " validLibs))
      else Ok tt
  | None => Ok tt
  end.

(** [[
    if (!config.outputPath.endsWith('.d.ts')) {
      throw new Error('Output path must end with .d.ts');
    }
    ]] *)
Definition checkOutputPath (output : string) : Result unit :=
  if GeneratorService.endsWith ".d.ts" output
  then Ok tt
  else Throw (new_Error "Output path must end with .d.ts").

(** [function validateConfig(config: GeneratorConfig): void]: the three
    checks in the order of the source; the first that fails throws. *)
Definition validateConfig (config : GeneratorConfig) (d : Disk) : Result unit :=
  match checkEnvFiles (envFiles config) d with
  | Throw e => Throw e
  | Ok _ =>
      match checkValidationLib (cfg_validationLib config) with
      | Throw e => Throw e
      | Ok _ => checkOutputPath (outputPath config)
      end
  end.

End Validate.

End Cli.

(** ** More runs on the in-memory host *)

Module MemoryRuns.

(** A disk on which the helper path [/work/types/env.js] is taken by a
    directory, and a configuration that asks for the runtime helper. *)
Definition blockedDisk : Memory.MemDisk :=
  Memory.mkMemDisk {[ "/work/.env" := "KEY=value1" ]} {[ "/work/types/env.js" ]}.

Definition helperConfig : GeneratorConfig :=
  {| envFiles := [".env"];
     outputPath := "types/env.d.ts";
     cfg_validationLib := None;
     validationOutput := None;
     cfg_requiredVars := None;
     cfg_parseTypes := Some true;
     cfg_strict := None;
     cfg_watch := None |}.

(** That disk once the declarations of [helperConfig] have been written. *)
Definition declaredDisk : Memory.MemDisk :=
  (@GeneratorService.writeFile Memory.node "types/env.d.ts"
     (TypeGenerator.generateTypes []
        (GeneratorService.generatorOptions helperConfig))
     blockedDisk).2.

(** A configuration with a library that the command line refuses. *)
Definition bogusConfig : GeneratorConfig :=
  {| envFiles := [".env"];
     outputPath := "types/env.d.ts";
     cfg_validationLib := Some "bogus";
     validationOutput := Some "config/env.validator.ts";
     cfg_requiredVars := None;
     cfg_parseTypes := None;
     cfg_strict := None;
     cfg_watch := None |}.

(** A watcher of two files, with a change of each of them waiting for its
    timer: [/work/.env] changed at 0 and [/work/.env.local] at 50. *)
Definition pendingOptions : FileWatcher.WatcherOptions :=
  FileWatcher.mkWatcherOptions [".env"; ".env.local"] 7 (Some 200%Z).

Definition pendingSteps : list FileWatcher.Label :=
  [ FileWatcher.DoWatch pendingOptions;
    FileWatcher.Change 0 "/work/.env"; FileWatcher.Tick 50;
    FileWatcher.Change 0 "/work/.env.local" ].

Definition pendingWorld : FileWatcher.World :=
  default FileWatcher.initial
    (@FileWatcher.execAll Memory.node pendingSteps FileWatcher.initial).

(** Two calls of [stop] that overlap: the first resumes, the client calls
    [watch] again, and the second is still suspended.  Its resumption gives
    [leakedWorld], where handle 1 sees the next change of [/work/.env]. *)
Definition overlapSteps : list FileWatcher.Label :=
  [ FileWatcher.DoWatch FileWatcher.burstOptions;
    FileWatcher.DoStop; FileWatcher.DoStop; FileWatcher.Resume;
    FileWatcher.DoWatch FileWatcher.burstOptions ].

Definition overlapWorld : FileWatcher.World :=
  default FileWatcher.initial
    (@FileWatcher.execList Memory.node overlapSteps FileWatcher.initial).

Definition leakedWorld : FileWatcher.World :=
  FileWatcher.stopResume overlapWorld.

Definition leakedSteps : list FileWatcher.Label :=
  [ FileWatcher.Change 1 "/work/.env"; FileWatcher.Tick 300; FileWatcher.Fire 0 ].

(** A watcher that is stopped by a client that awaits [stop], and started
    again: handle 1 sees the next change. *)
Definition restartSteps : list FileWatcher.Label :=
  [ FileWatcher.DoWatch FileWatcher.burstOptions;
    FileWatcher.DoStop; FileWatcher.Resume ].

Definition restartWorld : FileWatcher.World :=
  default FileWatcher.initial
    (@FileWatcher.execAll Memory.node restartSteps FileWatcher.initial).

Definition restartedSteps : list FileWatcher.Label :=
  [ FileWatcher.DoWatch FileWatcher.burstOptions;
    FileWatcher.Change 1 "/work/.env"; FileWatcher.Tick 300; FileWatcher.Fire 0 ].

(** A debounce delay of 2147483648 ms, one more than [setTimeout] accepts:
    two changes of [/work/.env] 100 ms apart, each with its timer running
    1 ms after it. *)
Definition oversizedOptions : FileWatcher.WatcherOptions :=
  FileWatcher.mkWatcherOptions [".env"] 7 (Some 2147483648%Z).

Definition oversizedSteps : list FileWatcher.Label :=
  [ FileWatcher.DoWatch oversizedOptions;
    FileWatcher.Change 0 "/work/.env"; FileWatcher.Tick 1; FileWatcher.Fire 0;
    FileWatcher.Tick 100; FileWatcher.Change 0 "/work/.env";
    FileWatcher.Tick 101; FileWatcher.Fire 1 ].

Definition oversizedWorld : FileWatcher.World :=
  default FileWatcher.initial
    (@FileWatcher.execAll Memory.node oversizedSteps FileWatcher.initial).

(** The world of the two pending changes once the timer of the first has
    run, and then once the callback it called has failed. *)
Definition calledWorld : FileWatcher.World :=
  default pendingWorld
    (@FileWatcher.execAll Memory.node
       [FileWatcher.Tick 200; FileWatcher.Fire 0] pendingWorld).

Definition failedWorld : FileWatcher.World :=
  default calledWorld
    (@FileWatcher.exec Memory.node
       (FileWatcher.Settle 0 (Throw (new_Error "disk full"))) calledWorld).

(** A service that has not been used, on the disk with [/work/.env]. *)
Definition freshService : @ServiceWatch.Service Memory.node :=
  @ServiceWatch.mkService Memory.node Memory.overlayDisk FileWatcher.initial [].

End MemoryRuns.

(** * Properties of the merge step *)

Section MergeFacts.

Implicit Types (m : JsMap.t EnvVariable) (v : EnvVariable) (l : list EnvVariable).

Lemma set_keys m k v :
  JsMap.keys (JsMap.set k v m) =
  if bool_decide (k ∈ JsMap.keys m) then JsMap.keys m else JsMap.keys m ++ [k].
Proof.
  induction m as [|[k' v'] m IH]; simpl; [done|].
  destruct (String.eqb_spec k' k) as [->|Hne].
  - simpl. rewrite bool_decide_eq_true_2; [done|]. left.
  - simpl. rewrite IH.
    destruct (bool_decide_reflect (k ∈ JsMap.keys m)) as [Hin|Hnin].
    + rewrite bool_decide_eq_true_2; [done|]. by right.
    + rewrite bool_decide_eq_false_2; [done|].
      intros Hin. apply elem_of_cons in Hin as [->|Hin]; [done|]. by apply Hnin.
Qed.

Lemma set_fresh m k v :
  k ∉ JsMap.keys m → JsMap.set k v m = m ++ [(k, v)].
Proof.
  induction m as [|[k' v'] m IH]; simpl; [done|].
  intros Hnin. apply not_elem_of_cons in Hnin as [Hne Hnin].
  destruct (String.eqb_spec k' k) as [->|_]; [done|].
  by rewrite IH.
Qed.

Lemma set_present m k v :
  k ∈ JsMap.keys m →
  ∃ m1 v0 m2, m = m1 ++ ((k, v0) :: m2) ∧ (k ∉ JsMap.keys m1) ∧
              JsMap.set k v m = m1 ++ ((k, v) :: m2).
Proof.
  induction m as [|[k' v'] m IH]; simpl.
  - intros Hin. by apply elem_of_nil in Hin.
  - intros Hin. destruct (String.eqb_spec k' k) as [->|Hne].
    + exists [], v', m. split_and!; [done| |done]. apply not_elem_of_nil.
    + apply elem_of_cons in Hin as [->|Hin]; [done|].
      destruct (IH Hin) as (m1 & v0 & m2 & -> & Hm1 & ->).
      exists ((k', v') :: m1), v0, m2. split_and!; [done| |done].
      simpl. apply not_elem_of_cons. split; [congruence|done].
Qed.

Lemma mergeInto_snoc m l v :
  mergeInto m (l ++ [v]) = JsMap.set (key v) v (mergeInto m l).
Proof. unfold mergeInto. by rewrite fold_left_app. Qed.

Lemma merge_flat arrays m :
  fold_left mergeInto arrays m = mergeInto m (concat arrays).
Proof.
  revert m. induction arrays as [|a arrays IH]; intros m; simpl; [done|].
  rewrite IH. unfold mergeInto. by rewrite fold_left_app.
Qed.

Lemma value_key_in m v :
  (∀ k v, (k, v) ∈ m → key v = k) → v ∈ JsMap.values m → key v ∈ JsMap.keys m.
Proof.
  intros Hk Hv. apply list_elem_of_fmap in Hv as ([k v'] & -> & Hin).
  simpl. rewrite (Hk _ _ Hin). apply list_elem_of_fmap. by exists (k, v').
Qed.

Lemma merged_inv_nil : merged_inv [] JsMap.empty.
Proof.
  split; simpl.
  - constructor.
  - intros k v H. by apply elem_of_nil in H.
  - done.
  - intros v H. by apply elem_of_nil in H.
Qed.

Lemma merged_inv_snoc l m x :
  merged_inv l m → merged_inv (l ++ [x]) (JsMap.set (key x) x m).
Proof.
  intros [Hnd Hkeyed Hdom Hlast].
  destruct (decide (key x ∈ JsMap.keys m)) as [Hin|Hnin].
  - destruct (set_present m (key x) x Hin) as (m1 & v0 & m2 & Hm & Hm1 & ->).
    subst m. unfold JsMap.keys in *. rewrite map_app in *. simpl in *.
    split.
    + unfold JsMap.keys. by rewrite map_app.
    + intros k v Hv. rewrite elem_of_app, elem_of_cons in Hv.
      destruct Hv as [Hv|[[= -> ->]|Hv]]; [|done|];
        apply Hkeyed; rewrite elem_of_app, elem_of_cons; auto.
    + intros k. unfold JsMap.keys. rewrite !map_app. simpl.
      rewrite Hdom. rewrite (elem_of_app (map key l)), list_elem_of_singleton.
      split; [auto|]. intros [H| ->]; [done|]. by apply Hdom.
    + intros v Hv. unfold JsMap.values in Hv. rewrite map_app in Hv. simpl in Hv.
      assert (Hx : ∀ w, w ∈ map snd m1 ∨ w ∈ map snd m2 →
                ∃ pre post, l ++ [x] = pre ++ w :: post ∧ key w ∉ map key post).
      { intros w Hw.
        assert (Hwv : w ∈ JsMap.values (m1 ++ (key x, v0) :: m2)).
        { unfold JsMap.values. rewrite map_app. simpl.
          rewrite elem_of_app, elem_of_cons. tauto. }
        destruct (Hlast w Hwv) as (pre & post & -> & Hpost).
        exists pre, (post ++ [x]). split; [by rewrite <- app_assoc|].
        rewrite map_app. simpl. rewrite elem_of_app, list_elem_of_singleton.
        intros [H|Heq]; [done|].
        (* two entries of the map would carry the key of [x] *)
        apply NoDup_app in Hnd as (Hnd1 & Hdisj & Hnd2).
        apply NoDup_cons in Hnd2 as [Hnk Hnd2].
        destruct Hw as [Hw|Hw].
        - apply list_elem_of_fmap in Hw as ([k' w'] & -> & Hin').
          simpl in Heq. apply Hm1. apply list_elem_of_fmap. exists (k', w').
          split; [|done]. simpl. rewrite <- Heq. apply Hkeyed.
          rewrite elem_of_app. auto.
        - apply list_elem_of_fmap in Hw as ([k' w'] & -> & Hin').
          simpl in Heq. apply Hnk. apply list_elem_of_fmap. exists (k', w').
          split; [|done]. simpl. rewrite <- Heq. apply Hkeyed.
          rewrite elem_of_app, elem_of_cons. auto. }
      rewrite elem_of_app, elem_of_cons in Hv.
      destruct Hv as [Hv|[->|Hv]]; [apply Hx; auto| |apply Hx; auto].
      exists l, []. split; [done|]. apply not_elem_of_nil.
  - rewrite (set_fresh m (key x) x Hnin). split.
    + unfold JsMap.keys. rewrite map_app. simpl. apply NoDup_app.
      split_and!; [done| |apply NoDup_singleton].
      intros k Hk Hk'. apply list_elem_of_singleton in Hk' as ->. done.
    + intros k v Hv. rewrite elem_of_app, list_elem_of_singleton in Hv.
      destruct Hv as [Hv|[= -> ->]]; [by apply Hkeyed|done].
    + intros k. unfold JsMap.keys. rewrite !map_app. simpl.
      rewrite !elem_of_app, !list_elem_of_singleton.
      unfold JsMap.keys in Hdom. by rewrite Hdom.
    + intros v Hv. unfold JsMap.values in Hv. rewrite map_app in Hv. simpl in Hv.
      rewrite elem_of_app, list_elem_of_singleton in Hv.
      destruct Hv as [Hv| ->].
      * destruct (Hlast v Hv) as (pre & post & -> & Hpost).
        exists pre, (post ++ [x]). split; [by rewrite <- app_assoc|].
        rewrite map_app. simpl. rewrite elem_of_app, list_elem_of_singleton.
        intros [H|Heq]; [done|]. apply Hnin. rewrite <- Heq.
        by apply value_key_in.
      * exists l, []. split; [done|]. apply not_elem_of_nil.
Qed.

Lemma merged_inv_flat l : merged_inv l (mergeInto JsMap.empty l).
Proof.
  induction l as [|x l IH] using rev_ind.
  - apply merged_inv_nil.
  - rewrite mergeInto_snoc. by apply merged_inv_snoc.
Qed.

Lemma keyed_values_keys m :
  (∀ k v, (k, v) ∈ m → key v = k) → map key (JsMap.values m) = JsMap.keys m.
Proof.
  induction m as [|[k v] m IH]; simpl; intros Hk; [done|].
  rewrite (Hk k v) by left. f_equal. apply IH.
  intros k' v' H. apply Hk. by right.
Qed.

Lemma elem_of_concat (ls : list (list EnvVariable)) x :
  x ∈ concat ls ↔ ∃ l, l ∈ ls ∧ x ∈ l.
Proof.
  induction ls as [|l0 ls IH]; simpl.
  - split; [intros H; by apply elem_of_nil in H|].
    intros (l & H & _). by apply elem_of_nil in H.
  - rewrite elem_of_app, IH. split.
    + intros [H|(l & Hl & Hx)]; [exists l0; split; [left|done]|].
      exists l. split; [by right|done].
    + intros (l & Hl & Hx). apply elem_of_cons in Hl as [->|Hl]; eauto.
Qed.

Lemma concat_split (ls : list (list EnvVariable)) pre x post :
  concat ls = pre ++ x :: post →
  ∃ before l after p q,
    ls = before ++ l :: after ∧ l = p ++ x :: q ∧
    pre = concat before ++ p ∧ post = q ++ concat after.
Proof.
  revert pre. induction ls as [|l0 ls IH]; intros pre; simpl.
  - intros H. by destruct pre.
  - intros H. apply app_eq_app in H as [l [[-> H]|[-> H]]].
    + destruct l as [|y l]; simpl in H.
      * symmetry in H. rewrite app_nil_r.
        destruct (IH [] H) as (b & l & a & p & q & -> & -> & Hp & ->).
        exists (pre :: b), (p ++ x :: q), a, p, q.
        split_and!; try done. simpl. by rewrite <- app_assoc, <- Hp, app_nil_r.
      * injection H as <- ->.
        exists [], (pre ++ x :: l), ls, pre, l. by split_and!.
    + destruct (IH l H) as (b & l1 & a & p & q & -> & -> & -> & ->).
      exists (l0 :: b), (p ++ x :: q), a, p, q.
      split_and!; try done. simpl. by rewrite app_assoc.
Qed.

Lemma filter_all (P : string → Prop) `{!∀ k, Decision (P k)} (ks : list string) :
  (∀ k, P k) → filter P ks = ks.
Proof.
  intros HP. induction ks as [|k ks IH]; [done|].
  rewrite filter_cons_True by done. by rewrite IH.
Qed.

Lemma mergeInto_keys l m :
  JsMap.keys (mergeInto m l) =
  JsMap.keys m ++ filter (λ k, k ∉ JsMap.keys m) (firstAppearance (map key l)).
Proof.
  revert m. induction l as [|x l IH]; intros m.
  - simpl. by rewrite app_nil_r.
  - change (mergeInto m (x :: l)) with (mergeInto (JsMap.set (key x) x m) l).
    rewrite IH, set_keys. simpl.
    destruct (bool_decide_reflect (key x ∈ JsMap.keys m)) as [Hin|Hnin].
    + rewrite filter_cons_False by (intros H; by apply H).
      rewrite list_filter_filter. f_equal. apply list_filter_iff.
      intros k. split; [|tauto]. intros Hk. split; [done|]. by intros ->.
    + rewrite filter_cons_True by done.
      rewrite <- app_assoc. simpl. do 2 f_equal.
      rewrite list_filter_filter. apply list_filter_iff.
      intros k. rewrite elem_of_app, list_elem_of_singleton. tauto.
Qed.

End MergeFacts.

(** The two merges of the specification: one key in two files, two keys
    in two files; and an override that keeps the place of the key. *)
Example merge_same_key :
  mergeVariables [ [mkEnvVariable "KEY" "value1" (Some "first")];
                   [mkEnvVariable "KEY" "value2" None] ]
  = [mkEnvVariable "KEY" "value2" None].
Proof. reflexivity. Qed.

Example merge_two_keys :
  mergeVariables [ [mkEnvVariable "A" "1" None]; [mkEnvVariable "B" "2" None] ]
  = [mkEnvVariable "A" "1" None; mkEnvVariable "B" "2" None].
Proof. reflexivity. Qed.

Example merge_override_in_place :
  mergeVariables [ [mkEnvVariable "A" "1" None; mkEnvVariable "B" "2" None];
                   [mkEnvVariable "A" "3" (Some "local")] ]
  = [mkEnvVariable "A" "3" (Some "local"); mkEnvVariable "B" "2" None].
Proof. reflexivity. Qed.

(** C1. Merging an ordered list of per-file variable lists yields exactly
    one record per distinct key, and that record is the last occurrence of
    the key in the last list that contains it (so value and comment both
    come from that occurrence). *)
Theorem mergeVariables_last_writer_wins (variableArrays : list (list EnvVariable)) :
  let merged := mergeVariables variableArrays in
  NoDup (map key merged) ∧
  (∀ k, k ∈ map key merged ↔
        ∃ variables, variables ∈ variableArrays ∧ k ∈ map key variables) ∧
  (∀ v, v ∈ merged →
        ∃ before variables after pre post,
          variableArrays = before ++ variables :: after ∧
          variables = pre ++ v :: post ∧
          (key v ∉ map key post) ∧
          ∀ later, later ∈ after → key v ∉ map key later).
Proof.
  unfold mergeVariables. simpl. rewrite merge_flat.
  destruct (merged_inv_flat (concat variableArrays)) as [Hnd Hkeyed Hdom Hlast].
  rewrite (keyed_values_keys _ Hkeyed). split_and!.
  - done.
  - intros k. rewrite Hdom. split.
    + intros Hk. apply list_elem_of_fmap in Hk as (v & -> & Hv).
      apply elem_of_concat in Hv as (variables & Hvars & Hv).
      exists variables. split; [done|]. by apply list_elem_of_fmap_2.
    + intros (variables & Hvars & Hk).
      apply list_elem_of_fmap in Hk as (v & -> & Hv).
      apply list_elem_of_fmap_2. apply elem_of_concat. eauto.
  - intros v Hv. destruct (Hlast v Hv) as (pre & post & Hflat & Hpost).
    destruct (concat_split _ _ _ _ Hflat)
      as (before & variables & after & p & q & -> & -> & -> & ->).
    exists before, (p ++ v :: q), after, p, q. split_and!; try done.
    + intros Hq. apply Hpost. rewrite map_app, elem_of_app. by left.
    + intros later Hlater Hk. apply Hpost. rewrite map_app, elem_of_app. right.
      apply list_elem_of_fmap in Hk as (w & Hw & Hin). rewrite Hw.
      apply list_elem_of_fmap_2. apply elem_of_concat. eauto.
Qed.

(** C2. The keys of the merged output are in the order in which each key
    first appears across the input lists; an override keeps the position of
    the first appearance. *)
Theorem mergeVariables_first_appearance_order (variableArrays : list (list EnvVariable)) :
  map key (mergeVariables variableArrays) =
  firstAppearance (map key (concat variableArrays)).
Proof.
  unfold mergeVariables. rewrite merge_flat.
  rewrite (keyed_values_keys _ (inv_keyed _ _ (merged_inv_flat _))).
  rewrite mergeInto_keys. simpl. apply filter_all.
  intros k. apply not_elem_of_nil.
Qed.

(** * Properties of the generator service *)

Section ServiceFacts.
Context `{Node} `{Unavailable}.

Import EnvParser GeneratorService.

Lemma parseFile_missing file options d :
  fs_existsSync (path_resolve file) d = false →
  parseFile file options d = (Throw (new_FileNotFoundError file), d).
Proof.
  intros Hmissing. unfold parseFile, mbind, M_bind, Eff.bind, Eff.inspect. simpl.
  by rewrite Hmissing.
Qed.

Lemma parseFile_present file options d content :
  fs_existsSync (path_resolve file) d = true →
  fs_readFileSync (path_resolve file) d = Ok content →
  parseFile file options d =
  (Ok (mkParsedEnvFile (parseContent content) (path_resolve file)), d).
Proof.
  intros Hfound Hread. unfold parseFile, mbind, M_bind, Eff.bind, Eff.inspect. simpl.
  rewrite Hfound. simpl. by rewrite Hread.
Qed.

Lemma parseFiles_first_missing before missing after options d :
  Forall (readable d) before →
  fs_existsSync (path_resolve missing) d = false →
  parseFiles (before ++ missing :: after) options d =
  (Throw (new_FileNotFoundError missing), d).
Proof.
  intros Hbefore Hmissing. unfold parseFiles.
  induction Hbefore as [|file before [Hfound [content Hread]] _ IH]; simpl.
  - unfold Eff.bind. by rewrite parseFile_missing.
  - unfold Eff.bind at 1. rewrite (parseFile_present _ _ _ content) by done.
    unfold Eff.bind at 1. by rewrite IH.
Qed.

Lemma generate_rethrows config d d' e :
  generateBody config d = (Throw e, d') →
  generate config d = (Throw (new_GenerationError (message e)), d').
Proof. intros Hbody. unfold generate, Eff.try_catch. by rewrite Hbody. Qed.

(** C3, as the code has it.  A path that does not resolve to an existing
    file makes [parseFile] fail with [FileNotFoundError]; when the files
    before it can be read, [parseFiles] fails with that error, and
    [generate] fails towards its caller with a [GenerationError] whose
    message wraps the message of the [FileNotFoundError].  Nothing has been
    written: the disk is as it was. *)
Theorem generate_missing_file_is_wrapped config d before missing after :
  envFiles config = before ++ missing :: after →
  Forall (readable d) before →
  fs_existsSync (path_resolve missing) d = false →
  (∀ options,
     parseFile missing options d = (Throw (new_FileNotFoundError missing), d)) ∧
  (∀ options,
     parseFiles (envFiles config) options d
     = (Throw (new_FileNotFoundError missing), d)) ∧
  generate config d
  = (Throw (mkJsError GenerationError
              ("Type generation failed: "
               +:+ "Environment file not found: " +:+ missing)), d).
Proof.
  intros Hfiles Hbefore Hmissing. split_and!.
  - intros options. by apply parseFile_missing.
  - intros options. rewrite Hfiles. by apply parseFiles_first_missing.
  - apply (generate_rethrows config d d (new_FileNotFoundError missing)).
    unfold generateBody, mbind, M_bind. unfold Eff.bind at 1.
    rewrite Hfiles. by rewrite parseFiles_first_missing.
Qed.

End ServiceFacts.

(** The run of [generate] on a disk that lacks the second of two files. *)
Lemma generate_overlay_missing_run :
  @GeneratorService.generate Memory.node Memory.blank
    Memory.overlayConfig Memory.overlayDisk
  = (Throw (mkJsError GenerationError
              "Type generation failed: Environment file not found: .env.local"),
     Memory.overlayDisk).
Proof. vm_compute. reflexivity. Qed.

(** C3, as stated, fails: the caller of [generate] does not receive a
    [FileNotFoundError] for the missing [.env.local]. *)
Lemma generate_missing_file_not_FileNotFound :
  @fs_existsSync Memory.node
    (@path_resolve Memory.node ".env.local") Memory.overlayDisk = false ∧
  ∃ e, fst (@GeneratorService.generate Memory.node Memory.blank
              Memory.overlayConfig Memory.overlayDisk) = Throw e ∧
       errorClass e = GenerationError ∧
       errorClass e ≠ FileNotFoundError ∧
       instanceOf e FileNotFoundError = false.
Proof.
  split; [by vm_compute|].
  rewrite generate_overlay_missing_run. simpl. eexists. split; [done|].
  split_and!; [done|discriminate|done].
Qed.

(** C3 on the in-memory host: [.env] is there, [.env.local] is not. *)
Lemma generate_missing_file_is_wrapped_witness :
  (∀ options,
     @EnvParser.parseFiles Memory.node Memory.blank
       (envFiles Memory.overlayConfig) options Memory.overlayDisk
     = (Throw (new_FileNotFoundError ".env.local"), Memory.overlayDisk)) ∧
  @GeneratorService.generate Memory.node Memory.blank
    Memory.overlayConfig Memory.overlayDisk
  = (Throw (mkJsError GenerationError
              ("Type generation failed: "
               +:+ "Environment file not found: " +:+ ".env.local")),
     Memory.overlayDisk).
Proof.
  apply (@generate_missing_file_is_wrapped Memory.node Memory.blank
           Memory.overlayConfig Memory.overlayDisk [".env"] ".env.local" []).
  - reflexivity.
  - constructor; [|constructor]. split; [by vm_compute|].
    exists "KEY=value1". by vm_compute.
  - by vm_compute.
Defined.

(** * Properties of the validation generator *)

Section ValidationFacts.
Context `{Unavailable}.

Import ValidationGenerator.

Lemma generateSchema_recognised vars lib options :
  lib ∈ recognisedDialects → ∃ r, generateSchema vars lib options = Ok r.
Proof.
  unfold recognisedDialects. rewrite !elem_of_cons, elem_of_nil.
  intros [->|[->|[->|[->|[]]]]]; unfold generateSchema; simpl; eauto.
Qed.

(** C7. The dialect ['none'] gives the absent result [null], and every
    dialect outside zod, yup, joi and none fails with [GenerationError]. *)
Theorem generateSchema_none_and_unsupported vars options :
  generateSchema vars "none" options = Ok None ∧
  ∀ lib, lib ∉ recognisedDialects →
         ∃ e, generateSchema vars lib options = Throw e ∧
              errorClass e = GenerationError.
Proof.
  split; [done|]. intros lib Hlib. unfold generateSchema.
  unfold recognisedDialects in Hlib.
  rewrite !not_elem_of_cons in Hlib. destruct Hlib as (Hz & Hy & Hj & Hn & _).
  apply String.eqb_neq in Hz, Hy, Hj, Hn. rewrite Hz, Hy, Hj, Hn.
  eexists. split; [done|]. done.
Qed.

End ValidationFacts.

(** C7 at the dialect ['bogus']. *)
Lemma generateSchema_none_and_unsupported_witness :
  ∃ e, @ValidationGenerator.generateSchema Memory.blank
         [mkEnvVariable "PORT" "3000" None] "bogus"
         (mkGeneratorOptions true "zod" [] false) = Throw e ∧
       errorClass e = GenerationError.
Proof.
  apply (@generateSchema_none_and_unsupported Memory.blank).
  unfold ValidationGenerator.recognisedDialects. rewrite !not_elem_of_cons.
  split_and!; try discriminate. apply not_elem_of_nil.
Defined.

(** * Properties of the type generator *)

Section TypeGeneratorFacts.

Import Chars EnvParser TypeGenerator.







End TypeGeneratorFacts.

(** * The options built by [generate] and the runtime helper *)

Section OptionFacts.
Context `{Node} `{Unavailable}.

Import EnvParser GeneratorService.

Lemma writeRuntimeHelper_enabled config vars options :
  cfg_parseTypes config = Some true →
  writeRuntimeHelper config vars options
  = writeFile (helperPathOf (outputPath config)) (generateRuntimeHelper vars options).
Proof. intros Hp. unfold writeRuntimeHelper. by rewrite Hp. Qed.


End OptionFacts.


(** * Properties of the type inferencer *)

Section InferFacts.

Import Chars EnvParser.

Lemma skipDigits_split cs :
  ∃ ds, cs = ds ++ skipDigits cs ∧ Forall (λ c, isDigit c = true) ds
        ∧ noLeadingDigit (skipDigits cs).
Proof.
  induction cs as [|c cs (ds & Hcs & Hds & Hrest)]; simpl.
  - exists []. by split_and!.
  - destruct (isDigit c) eqn:Hc.
    + exists (c :: ds). split_and!; [by rewrite Hcs at 1|by constructor|done].
    + exists []. by split_and!.
Qed.

Lemma skipDigits_app ds rest :
  Forall (λ c, isDigit c = true) ds → noLeadingDigit rest →
  skipDigits (ds ++ rest) = rest.
Proof.
  intros Hds Hrest. induction Hds as [|c ds Hc _ IH]; simpl.
  - destruct rest as [|c rest]; simpl in *; [done|by rewrite Hrest].
  - by rewrite Hc.
Qed.

Lemma digits1_Some cs rest :
  digits1 cs = Some rest →
  ∃ ds, allDigits ds ∧ cs = ds ++ rest ∧ noLeadingDigit rest.
Proof.
  destruct cs as [|c cs]; simpl; [done|].
  destruct (isDigit c) eqn:Hc; [|done]. intros [= <-].
  destruct (skipDigits_split cs) as (ds & Hcs & Hds & Hrest).
  exists (c :: ds). split; [split; [done|by constructor]|].
  split; [by rewrite Hcs at 1|done].
Qed.

Lemma digits1_app ds rest :
  allDigits ds → noLeadingDigit rest → digits1 (ds ++ rest) = Some rest.
Proof.
  intros [Hne Hds] Hrest. destruct Hds as [|c ds Hc Hds]; [done|].
  simpl. rewrite Hc. by rewrite skipDigits_app.
Qed.

Lemma isDecimalLiteral_shape v : isDecimalLiteral v = true ↔ decimalShape v.
Proof.
  unfold isDecimalLiteral. split.
  - intros Hdec. rewrite <- (string_of_list_ascii_of_string v).
    cbv zeta in Hdec. revert Hdec.
    generalize (list_ascii_of_string v) as cs. intros cs.
    assert (Hunsigned : ∀ (negative : bool) unsigned,
              cs = (if negative then ["-"%char] else []) ++ unsigned →
              match digits1 unsigned with
              | None => false
              | Some [] => true
              | Some (c :: fraction) =>
                  Ascii.eqb c "."
                  && match digits1 fraction with
                     | Some [] => true
                     | _ => false
                     end
              end = true →
              decimalShape (string_of_list_ascii cs)).
    { intros negative unsigned -> Hmatch.
      destruct (digits1 unsigned) as [rest|] eqn:Hint; [|done].
      apply digits1_Some in Hint as (int & Hint & -> & _).
      destruct rest as [|c fraction].
      - exists negative, int, None. by split_and!.
      - apply andb_true_iff in Hmatch as [Hdot Hfrac].
        apply Ascii.eqb_eq in Hdot as ->.
        destruct (digits1 fraction) as [[|]|] eqn:Hf; try done.
        apply digits1_Some in Hf as (f & Hf & -> & _). rewrite app_nil_r.
        exists negative, int, (Some f). split_and!; [done|done|].
        by intros ? [= <-]. }
    destruct cs as [|c cs]; [apply (Hunsigned false []); done|].
    destruct (Ascii.eqb_spec c "-") as [->|_].
    + by apply (Hunsigned true cs).
    + by apply (Hunsigned false (c :: cs)).
  - intros (negative & int & fraction & -> & Hint & Hfrac).
    unfold decimalText. rewrite list_ascii_of_string_of_list_ascii.
    set (tail := match fraction with Some f => "."%char :: f | None => [] end).
    assert (Hrest : noLeadingDigit tail) by (by destruct fraction).
    assert (Hgo : match digits1 (int ++ tail) with
                  | None => false
                  | Some [] => true
                  | Some (c :: fraction) =>
                      Ascii.eqb c "."
                      && match digits1 fraction with
                         | Some [] => true
                         | _ => false
                         end
                  end = true).
    { rewrite digits1_app by done. unfold tail. destruct fraction as [f|]; [|done].
      simpl. rewrite <- (app_nil_r f). by rewrite digits1_app; [|apply Hfrac|]. }
    destruct negative; simpl; [done|].
    destruct Hint as [Hne Hint]. destruct Hint as [|c int Hc Hint]; [done|].
    simpl in *. destruct (Ascii.eqb_spec c "-") as [->|_]; [done|]. exact Hgo.
Qed.

Lemma toLower_inv c x :
  x ∈ ["t"; "r"; "u"; "e"; "f"; "a"; "l"; "s"]%char →
  toLower c = x → c = x ∨ c = toUpper x.
Proof.
  intros Hx. repeat (apply elem_of_cons in Hx as [->|Hx]);
    [..|by apply elem_of_nil in Hx];
    destruct c as [[] [] [] [] [] [] [] []]; vm_compute; intros E;
    first [discriminate E | by left | by right].
Qed.

Lemma isBooleanLiteral_lower v :
  isBooleanLiteral v = true ↔ toLowerCase v = "true" ∨ toLowerCase v = "false".
Proof.
  unfold isBooleanLiteral. rewrite orb_true_iff.
  by rewrite !String.eqb_eq.
Qed.

Lemma toLowerCase_nil v : toLowerCase v = "" → v = "".
Proof. by destruct v. Qed.

Lemma isBooleanLiteral_variants v :
  isBooleanLiteral v = true ↔ v ∈ caseVariants "true" ++ caseVariants "false".
Proof.
  split.
  - rewrite isBooleanLiteral_lower. intros [Ht|Hf].
    + destruct v as [|c1 [|c2 [|c3 [|c4 v]]]]; try discriminate Ht.
      simpl in Ht. injection Ht as H1 H2 H3 H4 Hv.
      apply toLowerCase_nil in Hv as ->.
      apply toLower_inv in H1 as [->| ->]; [| |set_solver].
      all: apply toLower_inv in H2 as [->| ->]; [| |set_solver].
      all: apply toLower_inv in H3 as [->| ->]; [| |set_solver].
      all: apply toLower_inv in H4 as [->| ->]; [| |set_solver].
      all: apply (bool_decide_unpack _); by vm_compute.
    + destruct v as [|c1 [|c2 [|c3 [|c4 [|c5 v]]]]]; try discriminate Hf.
      simpl in Hf. injection Hf as H1 H2 H3 H4 H5 Hv.
      apply toLowerCase_nil in Hv as ->.
      apply toLower_inv in H1 as [->| ->]; [| |set_solver].
      all: apply toLower_inv in H2 as [->| ->]; [| |set_solver].
      all: apply toLower_inv in H3 as [->| ->]; [| |set_solver].
      all: apply toLower_inv in H4 as [->| ->]; [| |set_solver].
      all: apply toLower_inv in H5 as [->| ->]; [| |set_solver].
      all: apply (bool_decide_unpack _); by vm_compute.
  - revert v. apply Forall_forall. apply (bool_decide_unpack _). by vm_compute.
Qed.

(** The three tests look at different first characters, so at most one of
    them succeeds on a value. *)
Lemma first_char_classes c :
  (toLower c = "t"%char ∨ toLower c = "f"%char →
   isDigit c = false ∧ c ≠ "-"%char ∧ isJsonSpace c = false
   ∧ c ≠ "{"%char ∧ c ≠ "["%char) ∧
  (isDigit c = true ∨ c = "-"%char →
   isJsonSpace c = false ∧ c ≠ "{"%char ∧ c ≠ "["%char).
Proof.
  destruct c as [[] [] [] [] [] [] [] []]; vm_compute;
    (split; [intros [E|E]|intros [E|E]]); try discriminate E;
    split_and!; (reflexivity || discriminate).
Qed.

Lemma isBooleanLiteral_first c v :
  isBooleanLiteral (String c v) = true → toLower c = "t"%char ∨ toLower c = "f"%char.
Proof.
  unfold isBooleanLiteral. simpl.
  destruct (Ascii.eqb_spec (toLower c) "t"); [by left|].
  destruct (Ascii.eqb_spec (toLower c) "f"); [by right|done].
Qed.

Lemma isDecimalLiteral_first c v :
  isDecimalLiteral (String c v) = true → isDigit c = true ∨ c = "-"%char.
Proof.
  unfold isDecimalLiteral. simpl.
  destruct (Ascii.eqb_spec c "-"); [by right|].
  simpl. destruct (isDigit c); [by left|done].
Qed.

Lemma parsesToStructure_first c v :
  Json.parsesToStructure (String c v) = true →
  isJsonSpace c = true ∨ c = "{"%char ∨ c = "["%char.
Proof.
  unfold Json.parsesToStructure. simpl.
  destruct (isJsonSpace c); [by left|].
  destruct (Ascii.eqb_spec c "{"); [by (right; left)|].
  destruct (Ascii.eqb_spec c "["); [by (right; right)|done].
Qed.

Lemma tests_exclusive v :
  (isBooleanLiteral v = true → isDecimalLiteral v = false) ∧
  (isBooleanLiteral v = true → Json.parsesToStructure v = false) ∧
  (isDecimalLiteral v = true → Json.parsesToStructure v = false).
Proof.
  destruct v as [|c v]; [by vm_compute|].
  destruct (first_char_classes c) as [Hb Hd].
  split_and!.
  - intros Hbool. apply isBooleanLiteral_first, Hb in Hbool as (Hdig & Hminus & _).
    destruct (isDecimalLiteral (String c v)) eqn:E; [|done].
    apply isDecimalLiteral_first in E as [E| ->]; congruence.
  - intros Hbool. apply isBooleanLiteral_first, Hb in Hbool as (_ & _ & Hs & Ho & Ha).
    destruct (Json.parsesToStructure (String c v)) eqn:E; [|done].
    apply parsesToStructure_first in E as [E|[->| ->]]; congruence.
  - intros Hdec. apply isDecimalLiteral_first, Hd in Hdec as (Hs & Ho & Ha).
    destruct (Json.parsesToStructure (String c v)) eqn:E; [|done].
    apply parsesToStructure_first in E as [E|[->| ->]]; congruence.
Qed.

(** C9. [inferType] checks boolean, number, object and string in this
    order.  A value is a boolean exactly when it is [true] or [false] in some
    letter case, a number exactly when it is a decimal literal (optional [-],
    digits, optional point and digits), an object exactly when it parses as
    an array or an object, and a string otherwise; no value passes two of
    the tests, so the first match is the only one.  The sample values of the
    spec and of the tests are classified as stated. *)
Theorem inferType_classification :
  (∀ v, inferType v =
        if isBooleanLiteral v then TBoolean
        else if isDecimalLiteral v then TNumber
        else if Json.parsesToStructure v then TObject
        else TString) ∧
  (∀ v, inferType v = TBoolean ↔ v ∈ caseVariants "true" ++ caseVariants "false") ∧
  (∀ v, inferType v = TNumber ↔ decimalShape v) ∧
  (∀ v, inferType v = TObject ↔ Json.parsesToStructure v = true) ∧
  (∀ v, inferType v = TString ↔
        (v ∉ caseVariants "true" ++ caseVariants "false")
        ∧ ¬ decimalShape v ∧ Json.parsesToStructure v = false) ∧
  Forall (λ sample, inferType sample.1 = sample.2) inferTypeSamples.
Proof.
  split_and!.
  - done.
  - intros v. rewrite <- isBooleanLiteral_variants. unfold inferType.
    destruct (isBooleanLiteral v); [done|].
    destruct (isDecimalLiteral v); [done|].
    by destruct (Json.parsesToStructure v).
  - intros v. rewrite <- isDecimalLiteral_shape. unfold inferType.
    destruct (tests_exclusive v) as (Hbd & _ & _).
    destruct (isBooleanLiteral v); [by rewrite Hbd|].
    destruct (isDecimalLiteral v); [done|].
    by destruct (Json.parsesToStructure v).
  - intros v. unfold inferType.
    destruct (tests_exclusive v) as (_ & Hbs & Hds).
    destruct (isBooleanLiteral v); [by rewrite Hbs|].
    destruct (isDecimalLiteral v); [by rewrite Hds|].
    by destruct (Json.parsesToStructure v).
  - intros v. rewrite <- isBooleanLiteral_variants, <- isDecimalLiteral_shape.
    unfold inferType.
    destruct (isBooleanLiteral v); [intuition congruence|].
    destruct (isDecimalLiteral v); [intuition congruence|].
    destruct (Json.parsesToStructure v); intuition congruence.
  - apply (bool_decide_unpack _). by vm_compute.
Qed.

End InferFacts.

(** * Properties of the file watcher *)

Section WatcherFacts.
Context `{Node}.

Import FileWatcher.

(** ** Timers and the trace, in every reachable world *)

Lemma exec_step l w w' :
  exec l w = Some w' → unhandled w = None ∧ step l w = Some w'.
Proof. unfold exec. by destruct (unhandled w). Qed.

Lemma stopping_suspended w : stopping w = true ↔ (0 < suspended w)%nat.
Proof. unfold stopping. destruct (suspended w); simpl; split; (done || lia). Qed.

Lemma not_stopping_suspended w : stopping w = false ↔ suspended w = 0%nat.
Proof. unfold stopping. by destruct (suspended w). Qed.

Lemma armedOK_empty registered next tr : armedOK registered ∅ next tr.
Proof. intros id t Hid. by rewrite lookup_empty in Hid. Qed.

Lemma armedOK_event registered armed next tr e :
  (∀ p, ¬ about p e) →
  armedOK registered armed next tr → armedOK registered armed next (e :: tr).
Proof.
  intros He Hok id t Hid.
  destruct (Hok id t Hid) as (Hreg & Hlt & recent & t0 & ms & older & -> & Hq & Hdue).
  split_and!; [done|done|].
  exists (e :: recent), t0, ms, older. split_and!; [done| |done].
  constructor; [apply He|done].
Qed.

Lemma calledOK_event tr e :
  isCalled e = false → calledOK tr → calledOK (e :: tr).
Proof.
  intros He Hok later cb p time older Htr.
  destruct later as [|e' later]; simpl in Htr.
  - injection Htr as -> _. done.
  - injection Htr as _ Htr. by apply (Hok later cb p time older).
Qed.

Lemma foldr_clearTimeout_lookup (ids : list TimerId) (armed : gmap TimerId Timeout) id :
  foldr clearTimeout armed ids !! id
  = if decide (id ∈ ids) then None else armed !! id.
Proof.
  induction ids as [|i ids IH].
  - simpl. destruct (decide (id ∈ [])) as [Hin|_]; [|done].
    by apply elem_of_nil in Hin.
  - simpl. unfold clearTimeout at 1. destruct (decide (i = id)) as [->|Hne].
    + rewrite lookup_delete_eq.
      destruct (decide (id ∈ id :: ids)) as [_|Hnin]; [done|].
      exfalso. apply Hnin. left.
    + rewrite lookup_delete_ne by done. rewrite IH.
      destruct (decide (id ∈ ids)) as [Hin|Hnin];
        destruct (decide (id ∈ i :: ids)) as [Hin'|Hnin']; try done.
      * exfalso. apply Hnin'. by right.
      * apply elem_of_cons in Hin' as [->|Hin']; done.
Qed.

(** Clearing the registered timers leaves no timer armed. *)
Lemma clearTimers_none w :
  timersInv w → timeouts (clearTimers w) = ∅.
Proof.
  intros (Harmed & _ & _). apply map_eq. intros id. rewrite lookup_empty. simpl.
  rewrite foldr_clearTimeout_lookup.
  destruct (decide _) as [|Hnin]; [done|].
  destruct (timeouts w !! id) as [t|] eqn:Hid; [|done].
  destruct (Harmed id t Hid) as (Hreg & _). exfalso. apply Hnin.
  apply list_elem_of_fmap. exists (t_path t, id). split; [done|].
  by apply elem_of_map_to_list.
Qed.

Lemma timersInv_initial : timersInv initial.
Proof.
  split_and!; [apply armedOK_empty| |].
  - intros later cb p time older Htr. simpl in Htr. by destruct later.
  - intros p id Hp. simpl in Hp. by rewrite lookup_empty in Hp.
Qed.

Lemma timersInv_handleChange path cb ms w :
  timersInv w → timersInv (handleChange path cb ms w).
Proof.
  intros (Harmed & Hcalled & Hfresh). split_and!; simpl.
  - intros id t Hid.
    destruct (decide (id = nextTimer w)) as [->|Hne].
    + rewrite lookup_insert_eq in Hid. injection Hid as <-. simpl.
      rewrite lookup_insert_eq. split_and!; [done|lia|].
      by exists [], (now w), ms, (trace w).
    + rewrite lookup_insert_ne in Hid by done.
      assert (Hold : timeouts w !! id = Some t ∧ t_path t ≠ path).
      { destruct (debounceTimers w !! path) as [existing|] eqn:Hex.
        - unfold clearTimeout in Hid.
          destruct (decide (existing = id)) as [->|Hne'].
          + by rewrite lookup_delete_eq in Hid.
          + rewrite lookup_delete_ne in Hid by done. split; [done|].
            intros Hp. destruct (Harmed id t Hid) as (Hreg & _).
            rewrite Hp, Hex in Hreg. congruence.
        - split; [done|]. intros Hp. destruct (Harmed id t Hid) as (Hreg & _).
          rewrite Hp, Hex in Hreg. congruence. }
      destruct Hold as [Hid' Hp].
      destruct (Harmed id t Hid')
        as (Hreg & Hlt & recent & t0 & ms' & older & Htr & Hq & Hdue).
      rewrite lookup_insert_ne by done. split_and!; [done|lia|].
      exists (Changed path (now w) ms :: recent), t0, ms', older.
      split_and!; [by rewrite Htr| |done].
      constructor; [simpl; congruence|done].
  - by apply calledOK_event.
  - intros p id Hp. destruct (decide (path = p)) as [->|Hne].
    + rewrite lookup_insert_eq in Hp. injection Hp as <-. lia.
    + rewrite lookup_insert_ne in Hp by done. specialize (Hfresh p id Hp). lia.
Qed.

Lemma timersInv_timeoutBody timer t w :
  timeouts w !! timer = Some t → (due t <= now w)%Z →
  timersInv w → timersInv (timeoutBody timer t w).
Proof.
  intros Htimer Hdue (Harmed & Hcalled & Hfresh).
  destruct (Harmed timer t Htimer)
    as (Hreg & Hlt & recent & t0 & ms & older & Htr & Hq & Hdue').
  split_and!; simpl.
  - intros id t' Hid.
    destruct (decide (timer = id)) as [->|Hne]; [by rewrite lookup_delete_eq in Hid|].
    rewrite lookup_delete_ne in Hid by done.
    destruct (Harmed id t' Hid)
      as (Hreg' & Hlt' & recent' & t0' & ms' & older' & Htr' & Hq' & Hdue'').
    assert (Hp : t_path t ≠ t_path t').
    { intros Hp. rewrite Hp in Hreg. congruence. }
    rewrite lookup_delete_ne by done. split_and!; [done|done|].
    exists (Called (t_callback t) (t_path t) (now w) :: recent'), t0', ms', older'.
    split_and!; [by rewrite Htr'| |done].
    constructor; [simpl; congruence|done].
  - intros later cb p time older0 Htr0.
    destruct later as [|e later]; simpl in Htr0.
    + injection Htr0 as <- <- <- <-.
      exists recent, t0, ms, older. split_and!; [done|done|lia].
    + injection Htr0 as _ Htr0. by apply (Hcalled later cb p time older0).
  - intros p id Hp. apply lookup_delete_Some in Hp as [_ Hp]. by apply (Hfresh p id).
Qed.

Lemma timersInv_exec l w w' :
  exec l w = Some w' → timersInv w → timersInv w'.
Proof.
  intros Hexec Hinv. apply exec_step in Hexec as [_ Hexec].
  destruct l as [options| | |h path|timer|i outcome|time]; simpl in Hexec.
  - injection Hexec as <-. unfold watch.
    destruct (watcher w); simpl; [done|]. exact Hinv.
  - injection Hexec as <-. unfold stopBegin.
    destruct (watcher w) as [h|] eqn:Hw; simpl.
    + split_and!; simpl.
      * pose proof (clearTimers_none w Hinv) as Hnone. simpl in Hnone.
        rewrite Hnone. apply armedOK_empty.
      * apply calledOK_event; [done|apply Hinv].
      * intros p id Hp. by rewrite lookup_empty in Hp.
    + destruct Hinv as (Harmed & Hcalled & Hfresh). split_and!; simpl.
      * apply armedOK_event; [intros p Hp; exact Hp|done].
      * by apply calledOK_event.
      * done.
  - destruct (stopping w); [|done]. injection Hexec as <-.
    destruct Hinv as (Harmed & Hcalled & Hfresh). split_and!; simpl.
    + apply armedOK_event; [intros p Hp; exact Hp|done].
    + by apply calledOK_event.
    + done.
  - destruct (listening w !! h) as [listener|]; [|done]. injection Hexec as <-.
    by apply timersInv_handleChange.
  - destruct (timeouts w !! timer) as [t|] eqn:Ht; [|done].
    destruct (Z.leb_spec (due t) (now w)); [|done]. injection Hexec as <-.
    by apply timersInv_timeoutBody.
  - destruct (calls w !! i) as [call|] eqn:Hcall; [|done]. injection Hexec as <-.
    unfold executeCallbackResume. rewrite Hcall. exact Hinv.
  - destruct (now w <=? time)%Z; [|done]. by injection Hexec as <-.
Qed.

Lemma reachable_timersInv w : reachable w → timersInv w.
Proof.
  induction 1 as [|w l w' _ IH Hexec]; [apply timersInv_initial|].
  by apply (timersInv_exec l w w').
Qed.

Lemma orderly_reachable w : orderly w → reachable w.
Proof.
  induction 1 as [|w l w' _ IH _ Hexec]; [constructor|].
  by apply (reachable_step w l w').
Qed.

Lemma awaitedb_awaited l w : awaitedb l w = true → awaited l w.
Proof. intros Hb ->. simpl in Hb. by destruct (stopping w). Qed.

Lemma execAll_runs ls w w' : execAll ls w = Some w' → runs w ls w'.
Proof.
  revert w. induction ls as [|l ls IH]; intros w; simpl.
  - intros [= <-]. constructor.
  - destruct (awaitedb l w) eqn:Ha; [|done].
    destruct (exec l w) as [w1|] eqn:He; [|done]. intros Hrest.
    apply (runs_cons w l w1); [by apply awaitedb_awaited|done|by apply IH].
Qed.

Lemma runs_orderly w ls w' : runs w ls w' → orderly w → orderly w'.
Proof.
  induction 1 as [w|w l w1 ls w2 Ha He _ IH]; [done|].
  intros Hw. apply IH. by apply (orderly_step w l w1).
Qed.

Lemma execAll_orderly ls w : execAll ls initial = Some w → orderly w.
Proof.
  intros Hrun. apply (runs_orderly initial ls w); [by apply execAll_runs|].
  constructor.
Qed.


(** ** Debouncing *)

Lemma timesOK_event clock tr e :
  (∀ t, eventTime e = Some t → t = clock) →
  timesOK clock tr → timesOK clock (e :: tr).
Proof.
  intros He [Hbound Hsorted]. split.
  - intros e' t Hin Ht. apply elem_of_cons in Hin as [->|Hin].
    + rewrite (He t Ht). lia.
    + by apply (Hbound e' t).
  - intros later e1 mid e2 older t1 t2 Htr Ht1 Ht2.
    destruct later as [|e0 later]; simpl in Htr.
    + injection Htr as <- ->. rewrite (He t1 Ht1).
      apply (Hbound e2 t2); [|done].
      rewrite elem_of_app, elem_of_cons. auto.
    + injection Htr as _ ->. by apply (Hsorted later e1 mid e2 older).
Qed.

Lemma timesOK_later clock clock' tr :
  (clock ≤ clock')%Z → timesOK clock tr → timesOK clock' tr.
Proof.
  intros Hle [Hbound Hsorted]. split; [|done].
  intros e t Hin Ht. specialize (Hbound e t Hin Ht). lia.
Qed.

Lemma timesOK_exec l w w' :
  exec l w = Some w' → timesOK (now w) (trace w) → timesOK (now w') (trace w').
Proof.
  intros Hexec Hok. apply exec_step in Hexec as [_ Hexec].
  destruct l as [options| | |h path|timer|i outcome|time]; simpl in Hexec.
  - injection Hexec as <-. unfold watch. by destruct (watcher w).
  - injection Hexec as <-. unfold stopBegin.
    destruct (watcher w); simpl; by apply timesOK_event.
  - destruct (stopping w); [|done]. injection Hexec as <-. simpl.
    by apply timesOK_event.
  - destruct (listening w !! h); [|done]. injection Hexec as <-. simpl.
    apply timesOK_event; [|done]. by intros t [= <-].
  - destruct (timeouts w !! timer) as [t|]; [|done].
    destruct (due t <=? now w)%Z; [|done]. injection Hexec as <-. simpl.
    apply timesOK_event; [|done]. by intros t' [= <-].
  - destruct (calls w !! i) as [call|] eqn:Hcall; [|done]. injection Hexec as <-.
    unfold executeCallbackResume. by rewrite Hcall.
  - destruct (Z.leb_spec (now w) time); [|done]. injection Hexec as <-. simpl.
    by apply (timesOK_later (now w)).
Qed.

Lemma reachable_timesOK w : reachable w → timesOK (now w) (trace w).
Proof.
  induction 1 as [|w l w' _ IH Hexec].
  - split; simpl.
    + intros e t Hin. by apply elem_of_nil in Hin.
    + intros later e1 mid e2 older t1 t2 Htr. by destruct later.
  - by apply (timesOK_exec l w w').
Qed.

(** Between two consecutive changes of a path that are less than the delay
    apart, the callback is not called for the path. *)
Lemma burst_no_call clock tr :
  calledOK tr → timesOK clock tr →
  ∀ later p t2 ms2 between t1 ms1 older,
    tr = later ++ Changed p t2 ms2 :: between ++ Changed p t1 ms1 :: older →
    Forall (λ e, ∀ t ms, e ≠ Changed p t ms) between →
    (t2 < t1 + timerDelay ms1)%Z →
    Forall (λ e, ∀ cb t, e ≠ Called cb p t) between.
Proof.
  intros Hcalled [_ Hsorted] later p t2 ms2 between t1 ms1 older Htr Hcons Hgap.
  apply Forall_forall. intros e Hin cb t ->.
  apply list_elem_of_split in Hin as (b2 & b1 & ->).
  assert (Hquiet : (t1 + timerDelay ms1 ≤ t)%Z).
  { destruct (Hcalled (later ++ Changed p t2 ms2 :: b2) cb p t
                (b1 ++ Changed p t1 ms1 :: older))
      as (recent & t0 & ms & older' & Heq & Hq & Hle).
    { rewrite Htr. by repeat (rewrite <- app_assoc; simpl). }
    apply app_eq_app in Heq as [l [[-> Heq]|[-> Heq]]].
    - destruct l as [|e l]; simpl in Heq.
      + by injection Heq as <- <- _.
      + injection Heq as <- _. exfalso.
        rewrite Forall_forall in Hcons.
        apply (Hcons (Changed p t0 ms)) with t0 ms; [|done].
        rewrite !elem_of_app, !elem_of_cons, !elem_of_app, !elem_of_cons. auto 10.
    - destruct l as [|e l]; simpl in Heq.
      + by injection Heq as <- <- _.
      + injection Heq as <- _. exfalso.
        rewrite Forall_app, Forall_cons in Hq.
        destruct Hq as (_ & Habout & _). by apply Habout. }
  assert (Horder : (t ≤ t2)%Z).
  { apply (Hsorted later (Changed p t2 ms2) b2 (Called cb p t)
             (b1 ++ Changed p t1 ms1 :: older)); [|done|done].
    rewrite Htr. by repeat (rewrite <- app_assoc; simpl). }
  lia.
Qed.

Lemma calledOK_once tr :
  calledOK tr →
  ∀ later cb2 p t2 between cb1 t1 older,
    tr = later ++ Called cb2 p t2 :: between ++ Called cb1 p t1 :: older →
    ∃ t0 ms, Changed p t0 ms ∈ between.
Proof.
  intros Hok later cb2 p t2 between cb1 t1 older Htr.
  destruct (Hok later cb2 p t2 _ Htr) as (recent & t0 & ms & older' & Heq & Hq & _).
  apply app_eq_app in Heq as [l [[-> Heq]|[-> Heq]]].
  - destruct l as [|e l]; simpl in Heq; [done|].
    injection Heq as <- _. exists t0, ms.
    rewrite elem_of_app, elem_of_cons. auto.
  - destruct l as [|e l]; simpl in Heq; [done|].
    injection Heq as <- _. rewrite Forall_app, Forall_cons in Hq.
    destruct Hq as (_ & Habout & _). by destruct Habout.
Qed.

(** A delay of at most 2147483647 ms is never cut short by [setTimeout];
    a larger one is replaced by 1 ms. *)
Lemma timerDelay_covers ms :
  (ms ≤ 2147483647)%Z → (ms ≤ timerDelay ms)%Z.
Proof.
  intros Hhi. unfold timerDelay.
  destruct (Z.leb_spec 1 ms); destruct (Z.leb_spec ms 2147483647); simpl; lia.
Qed.

Lemma timerDelay_oversized ms :
  (2147483647 < ms)%Z → timerDelay ms = 1%Z.
Proof.
  intros Hhi. unfold timerDelay.
  destruct (Z.leb_spec 1 ms); destruct (Z.leb_spec ms 2147483647); simpl; lia.
Qed.

(** C5. The debounce delay is 300 when the options give none.  A change
    cancels the timer pending for its path and arms a new one, which is
    then the only timer of the path.  Every call of the callback for a path
    comes after a change of that path, with no other change of the path and
    no other call for it in between, and not before the delay of the timer
    has run out since that change; that delay is the debounce delay or
    more when the debounce delay is at most 2147483647 ms.  So between two
    calls for a path there is a change of the path, and between two
    consecutive changes of a path that are less than the delay apart there
    is no call for it: with a debounce delay of at most 2147483647 ms, a
    burst of changes is followed by one call at most, after the quiet
    period. *)
Theorem debounce_once_after_quiet_period w :
  reachable w →
  (∀ paths cb,
     watcher w = None →
     listening (watch (mkWatcherOptions paths cb None) w).2 !! nextHandle w
     = Some (mkListener (map path_resolve paths) cb 300)) ∧
  (∀ path cb ms,
     let w' := handleChange path cb ms w in
     (∀ existing, debounceTimers w !! path = Some existing →
                  timeouts w' !! existing = None) ∧
     debounceTimers w' !! path = Some (nextTimer w) ∧
     timeouts w' !! nextTimer w
     = Some (mkTimeout (now w + timerDelay ms) path cb) ∧
     (∀ timer t, timeouts w' !! timer = Some t → t_path t = path →
                 timer = nextTimer w)) ∧
  (∀ later cb p time older,
     trace w = later ++ Called cb p time :: older →
     ∃ recent t0 ms older',
       older = recent ++ Changed p t0 ms :: older' ∧
       Forall (λ e, ¬ about p e) recent ∧
       (t0 + timerDelay ms ≤ time)%Z ∧
       ((ms ≤ 2147483647)%Z → (t0 + ms ≤ time)%Z)) ∧
  (∀ later cb2 p t2 between cb1 t1 older,
     trace w = later ++ Called cb2 p t2 :: between ++ Called cb1 p t1 :: older →
     ∃ t0 ms, Changed p t0 ms ∈ between) ∧
  (∀ later p t2 ms2 between t1 ms1 older,
     trace w = later ++ Changed p t2 ms2 :: between ++ Changed p t1 ms1 :: older →
     Forall (λ e, ∀ t ms, e ≠ Changed p t ms) between →
     (t2 < t1 + timerDelay ms1)%Z ∨ ((ms1 ≤ 2147483647)%Z ∧ (t2 < t1 + ms1)%Z) →
     Forall (λ e, ∀ cb t, e ≠ Called cb p t) between).
Proof.
  intros Hreach. pose proof (reachable_timersInv w Hreach) as Hinv.
  pose proof (reachable_timesOK w Hreach) as Htimes.
  split_and!.
  - intros paths cb Hw. unfold watch. rewrite Hw. simpl.
    by rewrite lookup_insert_eq.
  - intros path cb ms w'.
    pose proof (timersInv_handleChange path cb ms w Hinv) as (Harmed' & _ & _).
    destruct Hinv as (Harmed & Hcalled & Hfresh).
    split_and!.
    + intros existing Hex. subst w'. simpl. rewrite Hex.
      specialize (Hfresh path existing Hex).
      rewrite lookup_insert_ne by lia. apply lookup_delete_eq.
    + subst w'. simpl. by rewrite lookup_insert_eq.
    + subst w'. simpl. by rewrite lookup_insert_eq.
    + intros timer t Htimer Hpath.
      destruct (Harmed' timer t Htimer) as (Hreg & _).
      rewrite Hpath in Hreg. subst w'. simpl in Hreg.
      rewrite lookup_insert_eq in Hreg. congruence.
  - intros later cb p time older Htr.
    destruct Hinv as (_ & Hcalled & _).
    destruct (Hcalled later cb p time older Htr)
      as (recent & t0 & ms & older' & Holder & Hquiet & Hdelay).
    exists recent, t0, ms, older'. split_and!; [done|done|done|].
    intros Hhi. pose proof (timerDelay_covers ms Hhi). lia.
  - apply calledOK_once, Hinv.
  - intros later p t2 ms2 between t1 ms1 older Htr Hbetween Hclose.
    apply (burst_no_call (now w) (trace w)) with later t2 ms2 t1 ms1 older;
      [apply Hinv|done|done|done|].
    destruct Hclose as [Hclose|[Hhi Hclose]]; [done|].
    pose proof (timerDelay_covers ms1 Hhi). lia.
Qed.

(** ** Stopping *)

Lemma orderlyInv_initial : orderlyInv initial.
Proof.
  split; simpl.
  - intros h l Hl. by rewrite lookup_empty in Hl.
  - done.
  - done.
  - lia.
Qed.

Lemma orderlyInv_exec l w w' :
  timersInv w → awaited l w → exec l w = Some w' → orderlyInv w → orderlyInv w'.
Proof.
  intros Htimers Hawaited Hexec Hinv. pose proof Hinv as [Hopen Hidle Hstop Hone].
  apply exec_step in Hexec as [_ Hexec].
  destruct l as [options| | |h path|timer|i outcome|time]; simpl in Hexec.
  - injection Hexec as <-. unfold watch.
    destruct (watcher w) as [h0|] eqn:Hw; simpl; [done|].
    assert (Hns : stopping w = false).
    { destruct (stopping w) eqn:Hs; [|done]. by destruct (Hstop eq_refl). }
    split; simpl.
    + intros h l Hl.
      destruct (decide (nextHandle w = h)) as [<-|Hne]; [by split|].
      rewrite lookup_insert_ne in Hl by done.
      destruct (Hopen h l Hl) as [Hw' _]. congruence.
    + intros [Hnone|Hs]; [done|]. change (stopping w = true) in Hs. congruence.
    + done.
    + done.
  - injection Hexec as <-. specialize (Hawaited eq_refl).
    apply not_stopping_suspended in Hawaited. unfold stopBegin.
    destruct (watcher w) as [h0|] eqn:Hw; simpl.
    + split; simpl.
      * intros h l Hl. apply lookup_delete_Some in Hl as [Hne Hl].
        destruct (Hopen h l Hl) as [Hw' _]. congruence.
      * intros _. pose proof (clearTimers_none w Htimers) as Hnone.
        by simpl in Hnone.
      * by rewrite Hw.
      * lia.
    + split; simpl; [exact Hopen| |exact Hstop|exact Hone].
      intros _. apply Hidle. by left.
  - destruct (stopping w) eqn:Hs; [|done]. injection Hexec as <-.
    pose proof (proj1 (stopping_suspended w) Hs) as Hpos.
    split; simpl.
    + intros h l Hl. destruct (Hopen h l Hl) as [_ Hs']. congruence.
    + intros _. apply Hidle. by right.
    + intros Hs'. apply stopping_suspended in Hs'. simpl in Hs'. lia.
    + lia.
  - destruct (listening w !! h) as [listener|] eqn:Hl; [|done].
    injection Hexec as <-. destruct (Hopen h listener Hl) as [Hw Hs].
    split; simpl.
    + done.
    + intros [Hnone|Hs']; [congruence|]. change (stopping w = true) in Hs'.
      congruence.
    + done.
    + done.
  - destruct (timeouts w !! timer) as [t|] eqn:Ht; [|done].
    destruct (due t <=? now w)%Z; [|done]. injection Hexec as <-.
    split; simpl.
    + done.
    + intros Hidle'. rewrite (Hidle Hidle') in Ht. by rewrite lookup_empty in Ht.
    + done.
    + done.
  - destruct (calls w !! i) as [call|] eqn:Hcall; [|done]. injection Hexec as <-.
    unfold executeCallbackResume. rewrite Hcall. by split.
  - destruct (now w <=? time)%Z; [|done]. injection Hexec as <-. by split.
Qed.

Lemma orderly_inv w : orderly w → orderlyInv w.
Proof.
  induction 1 as [|w l w' Hw IH Hawaited Hexec]; [apply orderlyInv_initial|].
  apply (orderlyInv_exec l w w'); try done.
  by apply reachable_timersInv, orderly_reachable.
Qed.

Lemma orderly_idle_silent w :
  orderlyInv w → watcher w = None → silent w.
Proof.
  intros [Hopen Hidle Hstop] Hw. split_and!; [done| |by apply Hidle; left|].
  - destruct (stopping w) eqn:Hs; [|done].
    destruct (Hstop eq_refl) as [h Hh]. congruence.
  - apply map_eq. intros h. rewrite lookup_empty.
    destruct (listening w !! h) as [l|] eqn:Hl; [|done].
    destruct (Hopen h l Hl) as [Hw' _]. congruence.
Qed.

(** A silent world stays silent, and calls no callback, until [watch] is
    called. *)
Lemma silent_run w ls w' :
  runs w ls w' → silent w → Forall (λ l, isDoWatch l = false) ls →
  silent w' ∧ ∃ added, trace w' = added ++ trace w
                       ∧ Forall (λ e, isCalled e = false) added.
Proof.
  induction 1 as [w|w l w1 ls w2 Hawaited Hexec Hruns IH].
  - intros Hs _. split; [done|]. by exists [].
  - intros (Hw & Hs & Ht & Hl) Hls. apply Forall_cons in Hls as [Hl0 Hls].
    assert (Hstep : silent w1 ∧ ∃ e, trace w1 = e ++ trace w
                                     ∧ Forall (λ e, isCalled e = false) e).
    { apply exec_step in Hexec as [_ Hexec].
      destruct l as [options| | |h path|timer|i outcome|time]; simpl in Hexec.
      - done.
      - injection Hexec as <-. unfold stopBegin. rewrite Hw. simpl.
        split; [by split_and!|]. exists [StopReturned]. split; [done|].
        by constructor.
      - by rewrite Hs in Hexec.
      - by rewrite Hl, lookup_empty in Hexec.
      - by rewrite Ht, lookup_empty in Hexec.
      - destruct (calls w !! i) as [call|] eqn:Hcall; [|done].
        injection Hexec as <-. unfold executeCallbackResume. rewrite Hcall.
        split; [by split_and!|]. by exists [].
      - destruct (now w <=? time)%Z; [|done]. injection Hexec as <-.
        split; [by split_and!|]. by exists []. }
    destruct Hstep as (Hsilent1 & e1 & He1 & Hq1).
    destruct (IH Hsilent1 Hls) as (Hsilent2 & e2 & He2 & Hq2).
    split; [done|]. exists (e2 ++ e1). split.
    + by rewrite He2, He1, app_assoc.
    + by apply Forall_app.
Qed.

Lemma stopReturns_idle l w w' :
  exec l w = Some w' → stopReturns l w → watcher w' = None.
Proof.
  intros Hexec Hreturns. apply exec_step in Hexec as [_ Hexec].
  destruct Hreturns as [[-> Hw]| ->]; simpl in Hexec.
  - injection Hexec as <-. unfold stopBegin. by rewrite Hw.
  - destruct (stopping w); [|done]. by injection Hexec as <-.
Qed.

(** C4.  In every reachable world where a watcher is running, the
    synchronous part of [stop] first cancels the registered timers, which
    leaves no timer armed while the handle is still open, and only then
    closes the handle.  Whenever a call of [stop] completes, [isWatching] is
    false.  For a client that does not call [stop] again while a call of
    [stop] is suspended: once a call of [stop] has completed, [isWatching]
    stays false and no callback is called in any further run, as long as
    [watch] is not called again. *)
Theorem stop_cancels_timers_then_silent :
  (∀ w h,
     reachable w → watcher w = Some h →
     stopBegin w = suspend (closeHandle h (clearTimers w)) ∧
     timeouts (clearTimers w) = ∅ ∧
     debounceTimers (clearTimers w) = ∅ ∧
     listening (clearTimers w) = listening w ∧
     listening (stopBegin w) = delete h (listening w) ∧
     timeouts (stopBegin w) = ∅ ∧
     trace (stopBegin w) = Closed h :: trace w) ∧
  (∀ w l w',
     reachable w → exec l w = Some w' → stopReturns l w →
     isWatching w' = false) ∧
  (∀ w l w',
     orderly w → awaited l w → exec l w = Some w' → stopReturns l w →
     isWatching w' = false ∧
     ∀ ls w'',
       runs w' ls w'' → Forall (λ l, isDoWatch l = false) ls →
       isWatching w'' = false ∧
       ∃ added, trace w'' = added ++ trace w'
                ∧ Forall (λ e, isCalled e = false) added).
Proof.
  split_and!.
  - intros w h Hreach Hw.
    pose proof (clearTimers_none w (reachable_timersInv w Hreach)) as Hnone.
    unfold stopBegin. rewrite Hw. simpl in *. by split_and!.
  - intros w l w' _ Hexec Hreturns. unfold isWatching.
    by rewrite (stopReturns_idle l w w').
  - intros w l w' Horderly Hawaited Hexec Hreturns.
    assert (Horderly' : orderly w') by by apply (orderly_step w l w').
    pose proof (stopReturns_idle l w w' Hexec Hreturns) as Hidle.
    pose proof (orderly_idle_silent w' (orderly_inv w' Horderly') Hidle) as Hsilent.
    split; [unfold isWatching; by rewrite Hidle|].
    intros ls w'' Hruns Hls.
    destruct (silent_run w' ls w'' Hruns Hsilent Hls) as ((Hw'' & _) & Hadded).
    split; [unfold isWatching; by rewrite Hw''|done].
Qed.

Lemma execList_reachable ls w w' :
  execList ls w = Some w' → reachable w → reachable w'.
Proof.
  revert w. induction ls as [|l ls IH]; intros w; simpl.
  - by intros [= <-].
  - destruct (exec l w) as [w1|] eqn:He; [|done]. intros Hrest Hw.
    apply (IH w1); [done|]. by apply (reachable_step w l w1).
Qed.

Lemma timerDelay_regular ms :
  (1 ≤ ms ≤ 2147483647)%Z → timerDelay ms = ms.
Proof.
  intros [Hlo Hhi]. unfold timerDelay.
  apply Z.leb_le in Hlo, Hhi. by rewrite Hlo, Hhi.
Qed.

End WatcherFacts.

(** ** A session on the in-memory host *)

Lemma burstWorld_run :
  @FileWatcher.execAll Memory.node FileWatcher.burstSteps FileWatcher.initial
  = Some FileWatcher.burstWorld.
Proof. by vm_compute. Qed.

Lemma stoppedWorld_run :
  @FileWatcher.execAll Memory.node [FileWatcher.DoStop; FileWatcher.Resume]
    FileWatcher.burstWorld
  = Some FileWatcher.stoppedWorld.
Proof. by vm_compute. Qed.

(** Two changes, one call, 300 ms after the second change. *)
Lemma burstWorld_trace :
  FileWatcher.trace FileWatcher.burstWorld
  = [ FileWatcher.Called 7 "/work/.env" 400;
      FileWatcher.Changed "/work/.env" 100 300;
      FileWatcher.Changed "/work/.env" 0 300 ].
Proof. by vm_compute. Qed.


Lemma burstWorld_reachable :
  @FileWatcher.reachable Memory.node FileWatcher.burstWorld.
Proof.
  apply (@orderly_reachable Memory.node).
  apply (@execAll_orderly Memory.node FileWatcher.burstSteps).
  vm_compute. reflexivity.
Qed.

(** C5 in the world of the session: every call in its trace comes after
    the latest change of its path, by the delay at least. *)
Lemma debounce_once_after_quiet_period_witness :
  @FileWatcher.reachable Memory.node FileWatcher.burstWorld ∧
  ∀ later cb p time older,
    FileWatcher.trace FileWatcher.burstWorld
    = later ++ FileWatcher.Called cb p time :: older →
    ∃ recent t0 ms older',
      older = recent ++ FileWatcher.Changed p t0 ms :: older' ∧
      Forall (λ e, ¬ FileWatcher.about p e) recent ∧
      (t0 + FileWatcher.timerDelay ms ≤ time)%Z ∧
      ((ms ≤ 2147483647)%Z → (t0 + ms ≤ time)%Z).
Proof.
  destruct (@debounce_once_after_quiet_period Memory.node
              FileWatcher.burstWorld burstWorld_reachable)
    as (_ & _ & Hquiet & _).
  split; [exact burstWorld_reachable|exact Hquiet].
Defined.

(** C5, as stated, fails for a debounce delay above 2147483647 ms: the two
    changes are 100 ms apart, within the delay of 2147483648 ms, and the
    callback is called for each of them, 1 ms after it. *)
Lemma debounce_oversized_delay_calls_twice :
  @FileWatcher.reachable Memory.node MemoryRuns.oversizedWorld ∧
  FileWatcher.trace MemoryRuns.oversizedWorld
  = [ FileWatcher.Called 7 "/work/.env" 101;
      FileWatcher.Changed "/work/.env" 100 2147483648;
      FileWatcher.Called 7 "/work/.env" 1;
      FileWatcher.Changed "/work/.env" 0 2147483648 ] ∧
  ¬ (∀ later p t2 ms2 between t1 ms1 older,
       FileWatcher.trace MemoryRuns.oversizedWorld
       = later ++ FileWatcher.Changed p t2 ms2
           :: between ++ FileWatcher.Changed p t1 ms1 :: older →
       Forall (λ e, ∀ t ms, e ≠ FileWatcher.Changed p t ms) between →
       (t2 < t1 + ms1)%Z →
       Forall (λ e, ∀ cb t, e ≠ FileWatcher.Called cb p t) between).
Proof.
  assert (Htrace : FileWatcher.trace MemoryRuns.oversizedWorld
                   = [ FileWatcher.Called 7 "/work/.env" 101;
                       FileWatcher.Changed "/work/.env" 100 2147483648;
                       FileWatcher.Called 7 "/work/.env" 1;
                       FileWatcher.Changed "/work/.env" 0 2147483648 ]).
  { vm_compute. reflexivity. }
  split_and!; [|exact Htrace|].
  - apply (@orderly_reachable Memory.node).
    apply (@execAll_orderly Memory.node MemoryRuns.oversizedSteps).
    vm_compute. reflexivity.
  - intros Hclaim.
    specialize (Hclaim [FileWatcher.Called 7 "/work/.env" 101]
                  "/work/.env" 100%Z 2147483648%Z
                  [FileWatcher.Called 7 "/work/.env" 1] 0%Z 2147483648%Z []
                  Htrace).
    assert (Hcalls : Forall (λ e, ∀ cb t, e ≠ FileWatcher.Called cb "/work/.env" t)
                       [FileWatcher.Called 7 "/work/.env" 1]).
    { apply Hclaim; [|lia]. constructor; [done|constructor]. }
    apply Forall_cons in Hcalls as [Hcall _]. by apply (Hcall 7 1%Z).
Qed.

Lemma pendingWorld_orderly :
  @FileWatcher.orderly Memory.node MemoryRuns.pendingWorld.
Proof.
  apply (@execAll_orderly Memory.node MemoryRuns.pendingSteps).
  vm_compute. reflexivity.
Qed.

(** C4 in the world with two changes pending: [stop] cancels both timers
    before it closes the handle, and after its resumption nothing is called
    until [watch] is called again. *)
Lemma stop_cancels_timers_then_silent_witness :
  (is_Some (FileWatcher.timeouts MemoryRuns.pendingWorld !! 0) ∧
   is_Some (FileWatcher.timeouts MemoryRuns.pendingWorld !! 1)) ∧
  FileWatcher.timeouts (FileWatcher.clearTimers MemoryRuns.pendingWorld) = ∅ ∧
  FileWatcher.listening (FileWatcher.clearTimers MemoryRuns.pendingWorld)
  = FileWatcher.listening MemoryRuns.pendingWorld ∧
  FileWatcher.isWatching
    (FileWatcher.stopResume (FileWatcher.stopBegin MemoryRuns.pendingWorld)) = false ∧
  ∀ ls w'',
    @FileWatcher.runs Memory.node
      (FileWatcher.stopResume (FileWatcher.stopBegin MemoryRuns.pendingWorld)) ls w'' →
    Forall (λ l, FileWatcher.isDoWatch l = false) ls →
    FileWatcher.isWatching w'' = false ∧
    ∃ added,
      FileWatcher.trace w''
      = added ++ FileWatcher.trace
                   (FileWatcher.stopResume (FileWatcher.stopBegin MemoryRuns.pendingWorld))
      ∧ Forall (λ e, FileWatcher.isCalled e = false) added.
Proof.
  destruct (@stop_cancels_timers_then_silent Memory.node)
    as (Hcancel & _ & Hafter).
  destruct (Hcancel MemoryRuns.pendingWorld 0)
    as (_ & Hnone & _ & Hopen & _).
  { apply (@orderly_reachable Memory.node). exact pendingWorld_orderly. }
  { vm_compute. reflexivity. }
  split; [split; vm_compute; eexists; reflexivity|].
  split; [exact Hnone|]. split; [exact Hopen|].
  apply (Hafter (FileWatcher.stopBegin MemoryRuns.pendingWorld) FileWatcher.Resume).
  - apply (@FileWatcher.orderly_step Memory.node MemoryRuns.pendingWorld
             FileWatcher.DoStop); [exact pendingWorld_orderly| |].
    + intros _. vm_compute. reflexivity.
    + vm_compute. reflexivity.
  - intros [=].
  - vm_compute. reflexivity.
  - by right.
Defined.

(** C4, as stated, fails in two ways.  After [stop] has returned and the
    client has called [watch] again, a change is followed by its callback.
    And when two calls of [stop] overlap and the client calls [watch]
    between their resumptions, the second resumption clears the field while
    the new handle is open: [stop] has returned, [isWatching] is false,
    [watch] is not called again, and the next change is still followed by
    its callback. *)
Lemma stop_overlapping_calls_leak :
  (@FileWatcher.orderly Memory.node MemoryRuns.restartWorld ∧
   FileWatcher.trace MemoryRuns.restartWorld
   = [FileWatcher.StopReturned; FileWatcher.Closed 0] ∧
   ∃ w'', @FileWatcher.execAll Memory.node MemoryRuns.restartedSteps
            MemoryRuns.restartWorld = Some w'' ∧
          FileWatcher.trace w''
          = FileWatcher.Called 7 "/work/.env" 300
              :: FileWatcher.Changed "/work/.env" 0 300
              :: FileWatcher.trace MemoryRuns.restartWorld) ∧
  (@FileWatcher.reachable Memory.node MemoryRuns.overlapWorld ∧
   @FileWatcher.exec Memory.node FileWatcher.Resume MemoryRuns.overlapWorld
   = Some MemoryRuns.leakedWorld ∧
   FileWatcher.stopReturns FileWatcher.Resume MemoryRuns.overlapWorld ∧
   FileWatcher.isWatching MemoryRuns.leakedWorld = false ∧
   FileWatcher.suspended MemoryRuns.leakedWorld = 0%nat ∧
   Forall (λ l, FileWatcher.isDoWatch l = false) MemoryRuns.leakedSteps ∧
   ∃ w'', @FileWatcher.execList Memory.node MemoryRuns.leakedSteps
            MemoryRuns.leakedWorld = Some w'' ∧
          FileWatcher.isWatching w'' = false ∧
          FileWatcher.trace w''
          = FileWatcher.Called 7 "/work/.env" 300
              :: FileWatcher.Changed "/work/.env" 0 300
              :: FileWatcher.trace MemoryRuns.leakedWorld).
Proof.
  split.
  - split_and!.
    + apply (@execAll_orderly Memory.node MemoryRuns.restartSteps).
      vm_compute. reflexivity.
    + vm_compute. reflexivity.
    + eexists. split; vm_compute; reflexivity.
  - split_and!.
    + apply (@execList_reachable Memory.node MemoryRuns.overlapSteps
               FileWatcher.initial); [vm_compute; reflexivity|constructor].
    + vm_compute. reflexivity.
    + by right.
    + vm_compute. reflexivity.
    + vm_compute. reflexivity.
    + repeat constructor.
    + eexists. split_and!; vm_compute; reflexivity.
Qed.

(** * Further properties of the merge step *)

Section MergeMore.

Implicit Types (m : JsMap.t EnvVariable) (v : EnvVariable) (l : list EnvVariable).

(** Records whose keys are new and distinct are appended in order. *)
Lemma mergeInto_fresh l m :
  NoDup (map key l) → (∀ v, v ∈ l → key v ∉ JsMap.keys m) →
  mergeInto m l = m ++ map (λ v, (key v, v)) l.
Proof.
  revert m. induction l as [|x l IH]; intros m Hnd Hfresh; simpl.
  - by rewrite app_nil_r.
  - apply NoDup_cons in Hnd as [Hx Hnd].
    change (mergeInto m (x :: l)) with (mergeInto (JsMap.set (key x) x m) l).
    rewrite set_fresh by (apply Hfresh; left).
    rewrite IH; [by rewrite <- app_assoc|done|].
    intros v Hv. unfold JsMap.keys. rewrite map_app. simpl.
    rewrite elem_of_app, list_elem_of_singleton. intros [Hin|Heq].
    + apply (Hfresh v); [by right|done].
    + apply Hx. rewrite <- Heq. by apply list_elem_of_fmap_2.
Qed.

Lemma keyed_rebuild m :
  (∀ k v, (k, v) ∈ m → key v = k) → map (λ v, (key v, v)) (JsMap.values m) = m.
Proof.
  induction m as [|[k v] m IH]; intros Hk; simpl; [done|].
  rewrite (Hk k v) by left. f_equal. apply IH. intros k' v' Hin. apply Hk. by right.
Qed.

Lemma mergeInto_app m l1 l2 :
  mergeInto m (l1 ++ l2) = mergeInto (mergeInto m l1) l2.
Proof. unfold mergeInto. by rewrite fold_left_app. Qed.

(** Setting the values of a merged map again, in order, rebuilds the map. *)
Lemma mergeInto_values l :
  mergeInto JsMap.empty (JsMap.values (mergeInto JsMap.empty l))
  = mergeInto JsMap.empty l.
Proof.
  destruct (merged_inv_flat l) as [Hnd Hkeyed _ _].
  rewrite mergeInto_fresh.
  - simpl. by apply keyed_rebuild.
  - by rewrite (keyed_values_keys _ Hkeyed).
  - intros v _. apply not_elem_of_nil.
Qed.

(** X1. Merging can be done in stages: merging the files of a first group,
    then merging the result, as if it were one file, with the files of a
    second group gives the same as merging all the files at once.  In
    particular merging a merged list again changes nothing. *)
Theorem mergeVariables_in_stages (first second : list (list EnvVariable)) :
  mergeVariables (first ++ second)
  = mergeVariables (mergeVariables first :: second)
  ∧ mergeVariables [mergeVariables first] = mergeVariables first.
Proof.
  assert (Hstage : ∀ rest,
            mergeVariables (first ++ rest)
            = mergeVariables (mergeVariables first :: rest)).
  { intros rest. unfold mergeVariables. rewrite !merge_flat. simpl.
    rewrite concat_app, !mergeInto_app. by rewrite mergeInto_values. }
  split; [apply Hstage|].
  rewrite <- Hstage. by rewrite app_nil_r.
Qed.

(** X2. When no key occurs twice in the files, nothing is dropped or moved:
    the merged list is the files one after the other. *)
Theorem mergeVariables_distinct_keys (variableArrays : list (list EnvVariable)) :
  NoDup (map key (concat variableArrays)) →
  mergeVariables variableArrays = concat variableArrays.
Proof.
  intros Hnd. unfold mergeVariables. rewrite merge_flat.
  rewrite mergeInto_fresh; [|done|intros v _; apply not_elem_of_nil].
  simpl. unfold JsMap.values. rewrite map_map. simpl. apply map_id.
Qed.

Lemma firstAppearance_elem (ks : list string) k :
  k ∈ firstAppearance ks ↔ k ∈ ks.
Proof.
  induction ks as [|k0 ks IH]; simpl; [done|].
  rewrite !elem_of_cons, list_elem_of_filter, IH.
  destruct (decide (k = k0)); intuition.
Qed.

Lemma filter_keeps_all (P : string → Prop) `{!∀ k, Decision (P k)} (ks : list string) :
  (∀ k, k ∈ ks → P k) → filter P ks = ks.
Proof.
  induction ks as [|k ks IH]; intros HP; [done|].
  rewrite filter_cons_True by (apply HP; left).
  f_equal. apply IH. intros k' Hk'. apply HP. by right.
Qed.

Lemma firstAppearance_length (ks : list string) :
  (length (firstAppearance ks) ≤ length ks)%nat
  ∧ (length (firstAppearance ks) = length ks ↔ NoDup ks).
Proof.
  induction ks as [|k ks [IHle IHeq]]; simpl.
  - split; [lia|]. split; [constructor|done].
  - pose proof (length_filter (λ k', k' ≠ k) (firstAppearance ks)) as Hf.
    split; [lia|]. rewrite NoDup_cons. split.
    + intros Heq. assert (Hks : length (firstAppearance ks) = length ks) by lia.
      split; [|by apply IHeq].
      intros Hin. apply firstAppearance_elem in Hin.
      pose proof (length_filter_lt (λ k', k' ≠ k) (firstAppearance ks) k Hin) as Hlt.
      assert (¬ k ≠ k) by (intros Hne; by apply Hne). specialize (Hlt H). lia.
    + intros [Hnin Hnd]. apply IHeq in Hnd. f_equal. rewrite <- Hnd.
      f_equal. apply filter_keeps_all. intros k' Hk' ->.
      apply Hnin. by apply firstAppearance_elem.
Qed.

Lemma merged_keys (variableArrays : list (list EnvVariable)) :
  map key (mergeVariables variableArrays)
  = firstAppearance (map key (concat variableArrays)).
Proof.
  unfold mergeVariables. rewrite merge_flat.
  rewrite (keyed_values_keys _ (inv_keyed _ _ (merged_inv_flat _))).
  rewrite mergeInto_keys. simpl. apply filter_all. intros k. apply not_elem_of_nil.
Qed.

(** X3. The merged list is never longer than the files together, it is as
    long exactly when no key occurs twice, and it is empty only when every
    file is empty. *)
Theorem mergeVariables_size (variableArrays : list (list EnvVariable)) :
  (length (mergeVariables variableArrays) ≤ length (concat variableArrays))%nat ∧
  (length (mergeVariables variableArrays) = length (concat variableArrays)
   ↔ NoDup (map key (concat variableArrays))) ∧
  (mergeVariables variableArrays = [] ↔ concat variableArrays = []).
Proof.
  pose proof (firstAppearance_length (map key (concat variableArrays))) as [Hle Heq].
  rewrite <- merged_keys, !length_map in Hle, Heq. split_and!; [done|done|].
  split.
  - intros Hnil. destruct (concat variableArrays) as [|v l] eqn:Hc; [done|].
    assert (Hk : key v ∈ map key (mergeVariables variableArrays)).
    { rewrite merged_keys, Hc. simpl. left. }
    rewrite Hnil in Hk. by apply elem_of_nil in Hk.
  - intros Hnil. apply length_zero_iff_nil. rewrite Hnil in Hle. simpl in Hle. lia.
Qed.

End MergeMore.

Lemma mergeVariables_distinct_keys_witness :
  mergeVariables [ [mkEnvVariable "A" "1" None]; [mkEnvVariable "B" "2" None] ]
  = [mkEnvVariable "A" "1" None; mkEnvVariable "B" "2" None].
Proof.
  apply (mergeVariables_distinct_keys
           [ [mkEnvVariable "A" "1" None]; [mkEnvVariable "B" "2" None] ]).
  apply (bool_decide_unpack _). by vm_compute.
Defined.

(** * Further properties of the generator service *)

Section StringFacts.

Lemma length_append (a b : string) :
  String.length (a +:+ b) = (String.length a + String.length b)%nat.
Proof. induction a as [|c a IH]; simpl; [done|]. by rewrite IH. Qed.

Lemma substring_whole (s : string) : substring 0 (String.length s) s = s.
Proof. induction s as [|c s IH]; simpl; [done|]. by rewrite IH. Qed.

Lemma substring_append_left (a b : string) :
  substring 0 (String.length a) (a +:+ b) = a.
Proof.
  induction a as [|c a IH]; simpl; [by destruct b|]. by rewrite IH.
Qed.

Lemma substring_append_right (a b : string) :
  substring (String.length a) (String.length b) (a +:+ b) = b.
Proof.
  induction a as [|c a IH]; simpl; [|done]. apply substring_whole.
Qed.

Lemma substring_split (s : string) (n : nat) :
  (n ≤ String.length s)%nat →
  substring 0 n s +:+ substring n (String.length s - n) s = s.
Proof.
  revert n. induction s as [|c s IH]; intros n Hn; simpl in *.
  - assert (n = 0%nat) as -> by lia. done.
  - destruct n as [|n]; simpl.
    + by rewrite substring_whole.
    + change (String c (substring 0 n s +:+ substring n (String.length s - n) s)
              = String c s).
      f_equal. apply IH. lia.
Qed.

Lemma endsWith_append (stem suffix : string) :
  GeneratorService.endsWith suffix (stem +:+ suffix) = true.
Proof.
  unfold GeneratorService.endsWith. rewrite length_append.
  apply andb_true_iff. split; [apply Nat.leb_le; lia|].
  replace (String.length stem + String.length suffix - String.length suffix)%nat
    with (String.length stem) by lia.
  rewrite substring_append_right. apply String.eqb_refl.
Qed.

Lemma endsWith_stem (suffix s : string) :
  GeneratorService.endsWith suffix s = true →
  s = substring 0 (String.length s - String.length suffix) s +:+ suffix.
Proof.
  unfold GeneratorService.endsWith. intros Hends.
  apply andb_true_iff in Hends as [Hle Heq].
  apply Nat.leb_le in Hle. apply String.eqb_eq in Heq.
  pose proof (substring_split s (String.length s - String.length suffix)) as Hs.
  replace (String.length s - (String.length s - String.length suffix))%nat
    with (String.length suffix) in Hs by lia.
  rewrite Heq in Hs. symmetry. apply Hs. lia.
Qed.

End StringFacts.

Section GenerateMore.
Context `{Node} `{Unavailable}.

Import EnvParser GeneratorService.

(** X4. Whatever goes wrong inside [generate], its caller receives a
    [GenerationError] whose message is the prefix of that class followed
    by the message of the error that was thrown inside. *)
Theorem generate_throws_only_GenerationError config d e d' :
  generate config d = (Throw e, d') →
  errorClass e = GenerationError ∧
  instanceOf e GenerationError = true ∧
  instanceOf e EnvTypeGeneratorError = true ∧
  ∃ cause, generateBody config d = (Throw cause, d') ∧
           message e = "Type generation failed: " +:+ message cause.
Proof.
  unfold generate, Eff.try_catch.
  destruct (generateBody config d) as [[[]|cause] d1]; [done|].
  unfold Eff.throw. intros [= <- <-]. split_and!; try done. by exists cause.
Qed.

(** The error of a failed [writeFile] names the file and what failed. *)
Lemma writeFile_throw_message file content d e d' :
  writeFile file content d = (Throw e, d') →
  ∃ cause,
    e = mkJsError GenerationError
          ("Type generation failed: "
           +:+ "Failed to write file " +:+ file +:+ ": " +:+ message cause).
Proof.
  unfold writeFile, Eff.try_catch.
  match goal with |- context [match ?body d with _ => _ end] =>
    destruct (body d) as [[[]|cause] d1] end; [done|].
  unfold Eff.throw. intros [= <- <-]. by exists cause.
Qed.

(** X5. [writeFile] throws nothing but a [GenerationError] that names the
    file and carries the message of what failed, which is either the creation
    of the missing directory, and then nothing was written, or the write
    itself. *)
Theorem writeFile_failure_is_wrapped file content d e d' :
  writeFile file content d = (Throw e, d') →
  ∃ cause,
    e = mkJsError GenerationError
          ("Type generation failed: "
           +:+ "Failed to write file " +:+ file +:+ ": " +:+ message cause) ∧
    let absolutePath := path_resolve file in
    let directory := path_dirname absolutePath in
    (fs_existsSync directory d = false
     ∧ fs_mkdirSync directory d = (Throw cause, d'))
    ∨ (fs_existsSync directory d = true
       ∧ fs_writeFileSync absolutePath content d = (Throw cause, d'))
    ∨ (fs_existsSync directory d = false
       ∧ ∃ d1, fs_mkdirSync directory d = (Ok tt, d1)
               ∧ fs_writeFileSync absolutePath content d1 = (Throw cause, d')).
Proof.
  unfold writeFile, Eff.try_catch, mbind, M_bind, Eff.bind, Eff.inspect, Eff.when.
  simpl. destruct (fs_existsSync (path_dirname (path_resolve file)) d) eqn:Hdir; simpl.
  - unfold Eff.ret.
    destruct (fs_writeFileSync (path_resolve file) content d) as [[[]|cause] d1] eqn:Hw;
      [done|].
    unfold Eff.throw. intros [= <- <-]. exists cause. split; [done|].
    right. left. by split.
  - destruct (fs_mkdirSync (path_dirname (path_resolve file)) d) as [[[]|cause] d1] eqn:Hm.
    + destruct (fs_writeFileSync (path_resolve file) content d1)
        as [[[]|cause] d2] eqn:Hw; [done|].
      unfold Eff.throw. intros [= <- <-]. exists cause. split; [done|].
      right. right. split; [done|]. by exists d1.
    + unfold Eff.throw. intros [= <- <-]. exists cause. split; [done|].
      left. by split.
Qed.

(** X6. [generate] is not all-or-nothing.  When the files have been parsed
    and a later step throws, the caller receives the wrapped error and the
    disk keeps what the earlier steps wrote: a failed write of the
    declarations comes out with the prefix twice; a failure of the helper
    step or of the validation step leaves the declarations written. *)
Theorem generate_keeps_earlier_writes config d parsed d0 :
  parseFiles (envFiles config)
    (mkParserOptions (cfg_parseTypes config) (cfg_requiredVars config)) d
  = (Ok parsed, d0) →
  let allVariables := mergeVariables (map variables parsed) in
  let options := generatorOptions config in
  let typeDefinition := TypeGenerator.generateTypes allVariables options in
  (∀ e d1,
     writeFile (outputPath config) typeDefinition d0 = (Throw e, d1) →
     generate config d = (Throw (new_GenerationError (message e)), d1) ∧
     ∃ cause, message (new_GenerationError (message e))
              = "Type generation failed: " +:+ "Type generation failed: "
                +:+ "Failed to write file " +:+ outputPath config
                +:+ ": " +:+ message cause) ∧
  (∀ d1 e d2,
     writeFile (outputPath config) typeDefinition d0 = (Ok tt, d1) →
     writeRuntimeHelper config allVariables options d1 = (Throw e, d2) →
     generate config d = (Throw (new_GenerationError (message e)), d2)) ∧
  (∀ d1 d2 e d3,
     writeFile (outputPath config) typeDefinition d0 = (Ok tt, d1) →
     writeRuntimeHelper config allVariables options d1 = (Ok tt, d2) →
     writeValidationSchema config allVariables options d2 = (Throw e, d3) →
     generate config d = (Throw (new_GenerationError (message e)), d3)) ∧
  (∀ d1 d2 d3,
     writeFile (outputPath config) typeDefinition d0 = (Ok tt, d1) →
     writeRuntimeHelper config allVariables options d1 = (Ok tt, d2) →
     writeValidationSchema config allVariables options d2 = (Ok tt, d3) →
     generate config d = (Ok tt, d3)).
Proof.
  intros Hparse allVariables options typeDefinition.
  assert (Hbody : generateBody config d
                  = (writeFile (outputPath config) typeDefinition;;
                     writeRuntimeHelper config allVariables options;;
                     writeValidationSchema config allVariables options) d0).
  { unfold generateBody, mbind, M_bind. unfold Eff.bind at 1. by rewrite Hparse. }
  unfold generate, Eff.try_catch. rewrite Hbody.
  unfold mbind, M_bind, Eff.bind. split_and!.
  - intros e d1 Hw. rewrite Hw. split; [done|].
    destruct (writeFile_throw_message _ _ _ _ _ Hw) as (cause & ->).
    by exists cause.
  - intros d1 e d2 Hw Hh. by rewrite Hw, Hh.
  - intros d1 d2 e d3 Hw Hh Hv. by rewrite Hw, Hh, Hv.
  - intros d1 d2 d3 Hw Hh Hv. by rewrite Hw, Hh, Hv.
Qed.

(** X7. No validation schema is produced or written unless the
    configuration names a library other than ['none'] and an output path,
    both non-empty: in every other case the validation step does nothing. *)
Theorem writeValidationSchema_gate config vars options d :
  cfg_validationLib config = None ∨ cfg_validationLib config = Some ""
  ∨ cfg_validationLib config = Some "none"
  ∨ validationOutput config = None ∨ validationOutput config = Some "" →
  writeValidationSchema config vars options d = (Ok tt, d).
Proof.
  unfold writeValidationSchema.
  intros [Hlib|[Hlib|[Hlib|[Hout|Hout]]]].
  - by rewrite Hlib.
  - rewrite Hlib. by destruct (validationOutput config).
  - rewrite Hlib. by destruct (validationOutput config).
  - rewrite Hout. by destruct (cfg_validationLib config).
  - rewrite Hout. destruct (cfg_validationLib config) as [lib|]; [|done].
    simpl. by rewrite andb_false_r.
Qed.

(** X8. The helper path replaces a final [.d.ts] of the output path by
    [.js]; an output path that does not end in [.d.ts] is its own helper
    path, and then, with [parseTypes] set, the helper step writes the runtime
    helper to the path of the declarations. *)
Theorem helperPathOf_suffix :
  (∀ stem, helperPathOf (stem +:+ ".d.ts") = stem +:+ ".js") ∧
  (∀ output, endsWith ".d.ts" output = true →
             ∃ stem, output = stem +:+ ".d.ts"
                     ∧ helperPathOf output = stem +:+ ".js"
                     ∧ helperPathOf output ≠ output) ∧
  (∀ output, endsWith ".d.ts" output = false → helperPathOf output = output) ∧
  (∀ config vars options,
     cfg_parseTypes config = Some true →
     endsWith ".d.ts" (outputPath config) = false →
     writeRuntimeHelper config vars options
     = writeFile (outputPath config) (generateRuntimeHelper vars options)).
Proof.
  assert (Hstem : ∀ stem, helperPathOf (stem +:+ ".d.ts") = stem +:+ ".js").
  { intros stem. unfold helperPathOf. rewrite endsWith_append, length_append.
    simpl. replace (String.length stem + 5 - 5)%nat with (String.length stem) by lia.
    by rewrite substring_append_left. }
  split_and!.
  - exact Hstem.
  - intros output Hends. apply endsWith_stem in Hends.
    set (stem := substring 0 (String.length output - String.length ".d.ts") output)
      in Hends.
    exists stem. rewrite Hends at 2 3 4. rewrite Hstem. split_and!; [done|done|].
    intros Heq. apply (f_equal String.length) in Heq.
    rewrite !length_append in Heq. simpl in Heq. lia.
  - intros output Hends. unfold helperPathOf. by rewrite Hends.
  - intros config vars options Hp Hends. unfold writeRuntimeHelper, helperPathOf.
    by rewrite Hp, Hends.
Qed.

End GenerateMore.

(** X4 on the disk that lacks [.env.local]. *)
Lemma generate_throws_only_GenerationError_witness :
  @GeneratorService.generate Memory.node Memory.blank
    Memory.overlayConfig Memory.overlayDisk
  = (Throw (mkJsError GenerationError
              "Type generation failed: Environment file not found: .env.local"),
     Memory.overlayDisk)
  ∧ instanceOf
      (mkJsError GenerationError
         "Type generation failed: Environment file not found: .env.local")
      EnvTypeGeneratorError = true.
Proof.
  assert (Hrun : @GeneratorService.generate Memory.node Memory.blank
                   Memory.overlayConfig Memory.overlayDisk
                 = (Throw (mkJsError GenerationError
                             "Type generation failed: Environment file not found: .env.local"),
                    Memory.overlayDisk)) by by vm_compute.
  split; [exact Hrun|].
  by destruct (@generate_throws_only_GenerationError Memory.node Memory.blank
                 _ _ _ _ Hrun) as (_ & _ & Hinst & _).
Defined.

(** X5 on the disk where the path to write is a directory. *)
Lemma writeFile_failure_is_wrapped_witness :
  ∃ e d', @GeneratorService.writeFile Memory.node
            "types/env.js" "text" MemoryRuns.blockedDisk = (Throw e, d')
          ∧ ∃ cause,
              e = mkJsError GenerationError
                    ("Type generation failed: "
                     +:+ "Failed to write file " +:+ "types/env.js"
                     +:+ ": " +:+ message cause).
Proof.
  eexists _, _. split; [by vm_compute|].
  edestruct (@writeFile_failure_is_wrapped Memory.node
               "types/env.js" "text" MemoryRuns.blockedDisk)
    as (cause & Hcause & _); [by vm_compute|].
  by exists cause.
Defined.

(** X6 on that disk: the declarations are written, the helper is not. *)
Lemma generate_keeps_earlier_writes_witness :
  @GeneratorService.generate Memory.node Memory.blank
    MemoryRuns.helperConfig MemoryRuns.blockedDisk
  = (Throw (mkJsError GenerationError
              ("Type generation failed: Type generation failed: "
               +:+ "Failed to write file types/env.js: "
               +:+ "is a directory: /work/types/env.js")),
     MemoryRuns.declaredDisk)
  ∧ is_Some (Memory.files MemoryRuns.declaredDisk !! "/work/types/env.d.ts")
  ∧ Memory.files MemoryRuns.declaredDisk !! "/work/types/env.js" = None.
Proof.
  destruct (@generate_keeps_earlier_writes Memory.node Memory.blank
              MemoryRuns.helperConfig MemoryRuns.blockedDisk
              [mkParsedEnvFile [] "/work/.env"] MemoryRuns.blockedDisk)
    as (_ & Hhelper & _).
  { vm_compute. reflexivity. }
  split_and!.
  - apply (Hhelper MemoryRuns.declaredDisk
             (mkJsError GenerationError
                ("Type generation failed: "
                 +:+ "Failed to write file types/env.js: "
                 +:+ "is a directory: /work/types/env.js"))
             MemoryRuns.declaredDisk).
    + vm_compute. reflexivity.
    + vm_compute. reflexivity.
  - vm_compute. eexists. reflexivity.
  - vm_compute. reflexivity.
Defined.

(** X7 at a configuration without a validation library. *)
Lemma writeValidationSchema_gate_witness :
  @GeneratorService.writeValidationSchema Memory.node Memory.blank
    Memory.overlayConfig [] (GeneratorService.generatorOptions Memory.overlayConfig)
    Memory.overlayDisk
  = (Ok tt, Memory.overlayDisk).
Proof.
  apply (@writeValidationSchema_gate Memory.node Memory.blank).
  by left.
Defined.

(** * Further properties of the file watcher *)

Section WatcherMore.
Context `{Node}.

Import FileWatcher.

(** A registered timer is armed, for the path it is registered under. *)
Lemma registered_armed_exec l w w' :
  exec l w = Some w' → timersInv w →
  (∀ p id, debounceTimers w !! p = Some id →
           ∃ t, timeouts w !! id = Some t ∧ t_path t = p) →
  (∀ p id, debounceTimers w' !! p = Some id →
           ∃ t, timeouts w' !! id = Some t ∧ t_path t = p).
Proof.
  intros Hexec (Harmed & _ & Hfresh) Hreg. apply exec_step in Hexec as [_ Hexec].
  destruct l as [options| | |h path|timer|i outcome|time]; simpl in Hexec.
  - injection Hexec as <-. unfold watch. by destruct (watcher w).
  - injection Hexec as <-. unfold stopBegin.
    destruct (watcher w); simpl; [|done].
    intros p id Hp. by rewrite lookup_empty in Hp.
  - destruct (stopping w); [|done]. by injection Hexec as <-.
  - destruct (listening w !! h) as [listener|]; [|done]. injection Hexec as <-.
    simpl. intros p id Hp.
    destruct (decide (path = p)) as [->|Hne].
    + rewrite lookup_insert_eq in Hp. injection Hp as <-.
      rewrite lookup_insert_eq. by eexists.
    + rewrite lookup_insert_ne in Hp by done.
      destruct (Hreg p id Hp) as (t & Ht & Hpath).
      pose proof (Hfresh p id Hp) as Hlt.
      exists t. split; [|done]. rewrite lookup_insert_ne by lia.
      destruct (debounceTimers w !! path) as [existing|] eqn:Hex; [|done].
      unfold clearTimeout. rewrite lookup_delete_ne; [done|].
      intros ->. destruct (Hreg path id Hex) as (t' & Ht' & Hpath').
      congruence.
  - destruct (timeouts w !! timer) as [t|] eqn:Ht; [|done].
    destruct (due t <=? now w)%Z; [|done]. injection Hexec as <-.
    simpl. intros p id Hp. apply lookup_delete_Some in Hp as [Hne Hp].
    destruct (Hreg p id Hp) as (t' & Ht' & Hpath).
    exists t'. split; [|done]. rewrite lookup_delete_ne; [done|].
    intros ->. congruence.
  - destruct (calls w !! i) as [call|] eqn:Hcall; [|done]. injection Hexec as <-.
    unfold executeCallbackResume. by rewrite Hcall.
  - destruct (now w <=? time)%Z; [|done]. by injection Hexec as <-.
Qed.

Lemma reachable_registered_armed w :
  reachable w →
  ∀ p id, debounceTimers w !! p = Some id →
          ∃ t, timeouts w !! id = Some t ∧ t_path t = p.
Proof.
  induction 1 as [|w l w' Hw IH Hexec].
  - intros p id Hp. simpl in Hp. by rewrite lookup_empty in Hp.
  - apply (registered_armed_exec l w w'); [done| |done].
    by apply reachable_timersInv.
Qed.

(** X9. The timer table and the event loop agree in every reachable
    world: a path is registered with a timer exactly when that timer is
    armed for that path.  No entry outlives its timer and no timer runs
    without its entry. *)
Theorem timers_match_registrations w :
  reachable w →
  ∀ p id, debounceTimers w !! p = Some id
          ↔ ∃ t, timeouts w !! id = Some t ∧ t_path t = p.
Proof.
  intros Hreach p id. split.
  - by apply reachable_registered_armed.
  - intros (t & Ht & <-).
    destruct (reachable_timersInv w Hreach) as (Harmed & _).
    by destruct (Harmed id t Ht) as (Hreg & _).
Qed.

(** X10. Debouncing is per path: a change of one path leaves the entry and
    the armed timer of every other path as they were. *)
Theorem handleChange_other_paths w path cb ms other :
  reachable w → other ≠ path →
  let w' := handleChange path cb ms w in
  debounceTimers w' !! other = debounceTimers w !! other ∧
  ∀ id, debounceTimers w !! other = Some id →
        timeouts w' !! id = timeouts w !! id.
Proof.
  intros Hreach Hne w'. subst w'. simpl. split; [by rewrite lookup_insert_ne|].
  intros id Hother.
  destruct (reachable_timersInv w Hreach) as (_ & _ & Hfresh).
  pose proof (Hfresh other id Hother) as Hlt.
  rewrite lookup_insert_ne by lia.
  destruct (debounceTimers w !! path) as [existing|] eqn:Hex; [|done].
  unfold clearTimeout. rewrite lookup_delete_ne; [done|].
  intros ->.
  destruct (reachable_registered_armed w Hreach path id Hex) as (t & Ht & Hp).
  destruct (reachable_registered_armed w Hreach other id Hother) as (t' & Ht' & Hp').
  congruence.
Qed.

(** X11. A change is not served early, and is served unless the process
    has ended.  The timer that [handleChange] arms cannot run before its
    delay has passed, which is the debounce delay or more when the debounce
    delay is at most 2147483647 ms, and 1 ms when it is larger.  Once the
    delay has passed, in a process that no failed callback has ended, the
    timer runs: the callback of the change is called with its path, the
    call is suspended at its [await], and the entry of the path is gone.  In
    a process that an unhandled rejection has ended, the timer never
    runs. *)
Theorem change_then_fire w path cb ms time :
  let w1 := handleChange path cb ms w in
  ((time < now w + timerDelay ms)%Z →
   exec (Fire (nextTimer w)) (advance time w1) = None) ∧
  ((ms ≤ 2147483647)%Z → (time < now w + ms)%Z →
   exec (Fire (nextTimer w)) (advance time w1) = None) ∧
  ((2147483647 < ms)%Z → timeouts w1 !! nextTimer w
                         = Some (mkTimeout (now w + 1) path cb)) ∧
  (unhandled w = None → (now w + timerDelay ms ≤ time)%Z →
   ∃ w2, exec (Fire (nextTimer w)) (advance time w1) = Some w2 ∧
         trace w2 = Called cb path time :: Changed path (now w) ms :: trace w ∧
         calls w2 = calls w ++ [mkCall cb path] ∧
         debounceTimers w2 !! path = None ∧
         timeouts w2 !! nextTimer w = None) ∧
  (is_Some (unhandled w) →
   exec (Fire (nextTimer w)) (advance time w1) = None).
Proof.
  intros w1. subst w1.
  assert (Hearly : (time < now w + timerDelay ms)%Z →
                   exec (Fire (nextTimer w))
                     (advance time (handleChange path cb ms w)) = None).
  { intros Hlt. unfold exec. simpl. destruct (unhandled w); [done|].
    rewrite lookup_insert_eq. simpl.
    by destruct (Z.leb_spec (now w + timerDelay ms) time); [lia|]. }
  split_and!.
  - exact Hearly.
  - intros Hhi Hlt. apply Hearly. pose proof (timerDelay_covers ms Hhi). lia.
  - intros Hhi. simpl. rewrite lookup_insert_eq.
    by rewrite (timerDelay_oversized ms Hhi).
  - intros Hrun Hle. unfold exec. simpl. rewrite Hrun.
    rewrite lookup_insert_eq. simpl.
    destruct (Z.leb_spec (now w + timerDelay ms) time); [|lia].
    eexists. split; [done|]. simpl. by rewrite !lookup_delete_eq.
  - intros [e He]. unfold exec. simpl. by rewrite He.
Qed.

(** X19. When the callback of a suspended [executeCallback] fails, its
    promise is rejected with an [EnvTypeGeneratorError] that names the path
    and carries the message of the failure.  Nobody handles the rejection,
    so the process ends: no further step is taken, and no callback is
    called again.  A callback that succeeds changes nothing but the list of
    suspended calls. *)
Theorem failed_callback_ends_the_process w i call outcome w' :
  calls w !! i = Some call →
  exec (Settle i outcome) w = Some w' →
  calls w' = delete i (calls w) ∧
  trace w' = trace w ∧ timeouts w' = timeouts w ∧
  debounceTimers w' = debounceTimers w ∧ watcher w' = watcher w ∧
  listening w' = listening w ∧
  (outcome = Ok tt → unhandled w' = None) ∧
  (∀ error, outcome = Throw error →
     unhandled w'
     = Some (mkJsError EnvTypeGeneratorError
               ("Callback execution failed for " +:+ c_path call +:+ ": "
                +:+ message error)) ∧
     ∀ l, exec l w' = None).
Proof.
  intros Hcall Hexec. apply exec_step in Hexec as [Hrun Hexec]. simpl in Hexec.
  rewrite Hcall in Hexec. injection Hexec as <-.
  unfold executeCallbackResume. rewrite Hcall. simpl.
  split_and!; try done.
  - by intros ->.
  - intros error ->. split; [done|]. intros l. unfold exec. by simpl.
Qed.

(** X12. While [stop] waits for the handle to close the watcher still
    counts as watching and [watch] is refused; once [stop] has resumed,
    [isWatching] is false and [watch] starts a new watcher. *)
Theorem stop_pending_then_restart w h options :
  watcher w = Some h →
  let pending := stopBegin w in
  let stopped := stopResume pending in
  isWatching pending = true ∧
  watch options pending
  = (Throw (mkJsError EnvTypeGeneratorError "Watcher is already running"), pending) ∧
  isWatching stopped = false ∧
  (watch options stopped).1 = Ok tt ∧
  isWatching (watch options stopped).2 = true ∧
  listening (watch options stopped).2 !! nextHandle w
  = Some (mkListener (map path_resolve (files options)) (onChanged options)
            (default 300%Z (debounceMs options))).
Proof.
  intros Hw. unfold stopBegin, watch, isWatching. rewrite Hw. simpl. rewrite Hw. simpl.
  split_and!; try done. by rewrite lookup_insert_eq.
Qed.

Lemma running_is_listening w :
  reachable w →
  ∀ h, watcher w = Some h → stopping w = false → is_Some (listening w !! h).
Proof.
  induction 1 as [|w l w' Hw IH Hexec]; [done|].
  apply exec_step in Hexec as [_ Hexec].
  destruct l as [options| | |h0 path|timer|i outcome|time]; simpl in Hexec.
  - injection Hexec as <-. unfold watch.
    destruct (watcher w) as [h1|] eqn:Hw1; simpl; [by rewrite Hw1|].
    intros h [= <-] _. by rewrite lookup_insert_eq.
  - injection Hexec as <-. unfold stopBegin.
    destruct (watcher w) as [h1|] eqn:Hw1; simpl; done.
  - destruct (stopping w); [|done]. by injection Hexec as <-.
  - destruct (listening w !! h0); [|done]. by injection Hexec as <-.
  - destruct (timeouts w !! timer) as [t|]; [|done].
    destruct (due t <=? now w)%Z; [|done]. by injection Hexec as <-.
  - destruct (calls w !! i) as [call|] eqn:Hcall; [|done]. injection Hexec as <-.
    unfold executeCallbackResume. by rewrite Hcall.
  - destruct (now w <=? time)%Z; [|done]. by injection Hexec as <-.
Qed.

(** X13. A client that awaits [stop] never leaks a handle or a timer: the
    open handles are exactly the handle of the watcher that is running and
    not being stopped, and when [isWatching] is false no handle is open, no
    timer is armed and the timer table is empty. *)
Theorem orderly_no_leak w :
  orderly w →
  (∀ h, is_Some (listening w !! h) ↔ watcher w = Some h ∧ stopping w = false) ∧
  (isWatching w = false →
   listening w = ∅ ∧ timeouts w = ∅ ∧ debounceTimers w = ∅).
Proof.
  intros Horderly. pose proof (orderly_reachable w Horderly) as Hreach.
  pose proof (orderly_inv w Horderly) as Hinv. split.
  - intros h. split.
    + intros [l Hl]. by apply (open_is_watcher w Hinv h l).
    + intros [Hw Hs]. by apply running_is_listening.
  - unfold isWatching. destruct (watcher w) as [h|] eqn:Hw; [done|]. intros _.
    destruct (orderly_idle_silent w Hinv Hw) as (_ & _ & Ht & Hl).
    split_and!; [done|done|].
    apply map_eq. intros p. rewrite lookup_empty.
    destruct (debounceTimers w !! p) as [id|] eqn:Hp; [|done].
    destruct (reachable_registered_armed w Hreach p id Hp) as (t & Hid & _).
    by rewrite Ht, lookup_empty in Hid.
Qed.

End WatcherMore.

(** X9 in a world with two changes pending: timer 1 is the one of
    [/work/.env.local]. *)
Lemma timers_match_registrations_witness :
  @FileWatcher.reachable Memory.node MemoryRuns.pendingWorld ∧
  FileWatcher.debounceTimers MemoryRuns.pendingWorld !! "/work/.env.local" = Some 1.
Proof.
  assert (Hreach : @FileWatcher.reachable Memory.node MemoryRuns.pendingWorld).
  { apply (@orderly_reachable Memory.node). exact pendingWorld_orderly. }
  split; [exact Hreach|].
  apply (@timers_match_registrations Memory.node MemoryRuns.pendingWorld Hreach).
  eexists. split; by vm_compute.
Defined.

(** X10 in that world: a further change of [/work/.env.local] leaves the
    timer of [/work/.env] armed. *)
Lemma handleChange_other_paths_witness :
  @FileWatcher.reachable Memory.node MemoryRuns.pendingWorld ∧
  FileWatcher.debounceTimers
    (FileWatcher.handleChange "/work/.env.local" 7 200 MemoryRuns.pendingWorld)
    !! "/work/.env" = Some 0 ∧
  FileWatcher.timeouts
    (FileWatcher.handleChange "/work/.env.local" 7 200 MemoryRuns.pendingWorld) !! 0
  = FileWatcher.timeouts MemoryRuns.pendingWorld !! 0.
Proof.
  assert (Hreach : @FileWatcher.reachable Memory.node MemoryRuns.pendingWorld).
  { apply (@orderly_reachable Memory.node). exact pendingWorld_orderly. }
  split; [exact Hreach|].
  destruct (@handleChange_other_paths Memory.node MemoryRuns.pendingWorld
              "/work/.env.local" 7 200%Z "/work/.env" Hreach)
    as [Hentry Htimer]; [done|].
  split.
  - rewrite Hentry. by vm_compute.
  - apply Htimer. by vm_compute.
Defined.

(** X11 for a change at 50 with a delay of 300 ms: at 349 the timer cannot
    run, at 350 it does; after a callback has failed it does not. *)
Lemma change_then_fire_witness :
  @FileWatcher.exec Memory.node (FileWatcher.Fire 2)
    (FileWatcher.advance 349
       (FileWatcher.handleChange "/work/.env" 7 300 MemoryRuns.pendingWorld))
  = None ∧
  (∃ w2,
     @FileWatcher.exec Memory.node (FileWatcher.Fire 2)
       (FileWatcher.advance 350
          (FileWatcher.handleChange "/work/.env" 7 300 MemoryRuns.pendingWorld))
     = Some w2 ∧
     FileWatcher.debounceTimers w2 !! "/work/.env" = None) ∧
  @FileWatcher.exec Memory.node (FileWatcher.Fire 2)
    (FileWatcher.advance 500
       (FileWatcher.handleChange "/work/.env" 7 300 MemoryRuns.failedWorld))
  = None.
Proof.
  destruct (@change_then_fire Memory.node MemoryRuns.pendingWorld
              "/work/.env" 7 300%Z 349%Z) as (_ & Hearly & _).
  destruct (@change_then_fire Memory.node MemoryRuns.pendingWorld
              "/work/.env" 7 300%Z 350%Z) as (_ & _ & _ & Hdue & _).
  destruct (@change_then_fire Memory.node MemoryRuns.failedWorld
              "/work/.env" 7 300%Z 500%Z) as (_ & _ & _ & _ & Hended).
  split_and!.
  - apply Hearly; vm_compute; [discriminate|reflexivity].
  - destruct Hdue as (w2 & Hexec & _ & _ & Hentry & _).
    + vm_compute. reflexivity.
    + vm_compute. discriminate.
    + by exists w2.
  - apply Hended. vm_compute. eexists. reflexivity.
Defined.

(** X19 for the callback called in [calledWorld]. *)
Lemma failed_callback_ends_the_process_witness :
  FileWatcher.calls MemoryRuns.calledWorld !! 0
  = Some (FileWatcher.mkCall 7 "/work/.env") ∧
  FileWatcher.unhandled MemoryRuns.failedWorld
  = Some (mkJsError EnvTypeGeneratorError
            "Callback execution failed for /work/.env: disk full") ∧
  ∀ l, @FileWatcher.exec Memory.node l MemoryRuns.failedWorld = None.
Proof.
  assert (Hcall : FileWatcher.calls MemoryRuns.calledWorld !! 0
                  = Some (FileWatcher.mkCall 7 "/work/.env")).
  { vm_compute. reflexivity. }
  split; [exact Hcall|].
  destruct (@failed_callback_ends_the_process Memory.node
              MemoryRuns.calledWorld 0 (FileWatcher.mkCall 7 "/work/.env")
              (Throw (new_Error "disk full")) MemoryRuns.failedWorld Hcall)
    as (_ & _ & _ & _ & _ & _ & _ & Hfailed).
  { vm_compute. reflexivity. }
  exact (Hfailed (new_Error "disk full") eq_refl).
Defined.

(** X12 in that world. *)
Lemma stop_pending_then_restart_witness :
  FileWatcher.watcher MemoryRuns.pendingWorld = Some 0 ∧
  FileWatcher.isWatching (FileWatcher.stopBegin MemoryRuns.pendingWorld) = true ∧
  FileWatcher.isWatching
    (FileWatcher.stopResume (FileWatcher.stopBegin MemoryRuns.pendingWorld)) = false.
Proof.
  assert (Hw : FileWatcher.watcher MemoryRuns.pendingWorld = Some 0) by by vm_compute.
  split; [exact Hw|].
  destruct (@stop_pending_then_restart Memory.node MemoryRuns.pendingWorld 0
              MemoryRuns.pendingOptions Hw) as (Hpending & _ & Hstopped & _).
  by split.
Defined.

(** X13 in that world: handle 0 is open, and it is the watcher's. *)
Lemma orderly_no_leak_witness :
  @FileWatcher.orderly Memory.node MemoryRuns.pendingWorld ∧
  ∀ h, is_Some (FileWatcher.listening MemoryRuns.pendingWorld !! h)
       ↔ FileWatcher.watcher MemoryRuns.pendingWorld = Some h
         ∧ FileWatcher.stopping MemoryRuns.pendingWorld = false.
Proof.
  split; [exact pendingWorld_orderly|].
  by destruct (@orderly_no_leak Memory.node MemoryRuns.pendingWorld
                 pendingWorld_orderly) as [Hopen _].
Defined.

(** * Watch mode of the service *)

Section ServiceMore.
Context `{Node} `{Unavailable}.

Import ServiceWatch.

(** X14. [GeneratorService.watch] generates before it looks at the watcher.
    When that generation throws, the error reaches the caller and no watcher
    is started.  When it succeeds on a service that is not watching, the
    watcher listens on the resolved paths of [envFiles] with the default
    delay of 300 ms and the new closure as callback.  On a service that is
    watching already the files are regenerated all the same, and then the
    call throws with the watcher as it was. *)
Theorem service_watch_outcomes config s :
  let run := GeneratorService.generate config (disk s) in
  (∀ e, run.1 = Throw e →
        watch config s = (Throw e, mkService run.2 (fileWatcher s) (closures s))) ∧
  (run.1 = Ok tt → FileWatcher.watcher (fileWatcher s) = None →
   ∃ s', watch config s = (Ok tt, s') ∧ disk s' = run.2 ∧
         isWatching s' = true ∧
         FileWatcher.listening (fileWatcher s')
           !! FileWatcher.nextHandle (fileWatcher s)
         = Some (FileWatcher.mkListener (map path_resolve (envFiles config))
                   (length (closures s)) 300) ∧
         closures s' !! length (closures s) = Some config) ∧
  (∀ h, run.1 = Ok tt → FileWatcher.watcher (fileWatcher s) = Some h →
        ∃ s', watch config s
              = (Throw (mkJsError EnvTypeGeneratorError "Watcher is already running"),
                 s') ∧
              disk s' = run.2 ∧ fileWatcher s' = fileWatcher s).
Proof.
  intros run. subst run. unfold watch.
  destruct (GeneratorService.generate config (disk s)) as [[[]|e0] d']; simpl.
  - split_and!; [done| |].
    + intros _ Hidle. unfold FileWatcher.watch. rewrite Hidle. simpl.
      eexists. split; [done|]. unfold isWatching. simpl.
      split_and!; [done|done|by rewrite lookup_insert_eq|].
      rewrite lookup_app_r by done. by rewrite Nat.sub_diag.
    + intros h _ Hbusy. unfold FileWatcher.watch. rewrite Hbusy. simpl.
      eexists. by split.
  - split_and!; [by intros e [= <-]|done|done].
Qed.

(** X18. [stopWatch] touches no file and ends watch mode once it has
    resumed; a [watch] after it generates again and, when that succeeds,
    starts a new watcher. *)
Theorem service_stop_then_watch_again config s h :
  FileWatcher.watcher (fileWatcher s) = Some h →
  let stopped := stopWatchResume (stopWatchBegin s) in
  disk stopped = disk s ∧
  isWatching (stopWatchBegin s) = true ∧
  isWatching stopped = false ∧
  ((GeneratorService.generate config (disk s)).1 = Ok tt →
   ∃ s', watch config stopped = (Ok tt, s') ∧
         disk s' = (GeneratorService.generate config (disk s)).2 ∧
         isWatching s' = true).
Proof.
  intros Hw. unfold stopWatchResume, stopWatchBegin, isWatching, watch. simpl.
  unfold FileWatcher.stopBegin. rewrite Hw. simpl.
  unfold FileWatcher.isWatching. simpl. rewrite Hw.
  split_and!; try done.
  destruct (GeneratorService.generate config (disk s)) as [[[]|e] d']; [|done].
  intros _. eexists. by split_and!.
Qed.

End ServiceMore.

(** X14 on the in-memory host: the first [watch] of a fresh service writes
    the declarations and starts the watcher. *)
Lemma service_watch_outcomes_witness :
  ∃ s', @ServiceWatch.watch Memory.node Memory.blank
          MemoryRuns.helperConfig MemoryRuns.freshService = (Ok tt, s') ∧
        ServiceWatch.isWatching s' = true ∧
        ServiceWatch.closures s' !! 0 = Some MemoryRuns.helperConfig.
Proof.
  destruct (@service_watch_outcomes Memory.node Memory.blank
              MemoryRuns.helperConfig MemoryRuns.freshService)
    as (_ & Hstart & _).
  destruct Hstart as (s' & Hrun & _ & Hwatching & _ & Hclosure);
    [by vm_compute|by vm_compute|].
  by exists s'.
Defined.

(** * The checks of the command line *)

Section CliMore.
Context `{Node}.

Import Cli.

Lemma checkEnvFiles_ok files d :
  checkEnvFiles files d = Ok tt
  ↔ Forall (λ f, fs_existsSync (path_resolve f) d = true) files.
Proof.
  induction files as [|f files IH]; simpl; [done|].
  rewrite Forall_cons.
  destruct (fs_existsSync (path_resolve f) d); [rewrite IH; by split; [|intros [_ ?]]|].
  split; [done|]. by intros [? _].
Qed.

Lemma checkEnvFiles_first_missing before missing after d :
  Forall (λ f, fs_existsSync (path_resolve f) d = true) before →
  fs_existsSync (path_resolve missing) d = false →
  checkEnvFiles (before ++ missing :: after) d
  = Throw (new_Error ("Environment file not found: " +:+ missing)).
Proof.
  intros Hbefore Hmissing.
  induction Hbefore as [|f before Hf _ IH]; simpl.
  - by rewrite Hmissing.
  - by rewrite Hf.
Qed.

Lemma checkValidationLib_ok lib :
  checkValidationLib lib = Ok tt
  ↔ ∀ l, lib = Some l → l = "" ∨ l ∈ validLibs.
Proof.
  destruct lib as [l|]; simpl; [|by split].
  destruct (String.eqb_spec l "") as [->|Hne]; simpl.
  - split; [|done]. intros _ ? [= <-]. by left.
  - destruct (decide (l ∈ validLibs)) as [Hin|Hout].
    + rewrite bool_decide_eq_true_2 by done. simpl. split; [|done].
      intros _ ? [= <-]. by right.
    + rewrite bool_decide_eq_false_2 by done. simpl. split; [done|].
      intros Hl. by destruct (Hl l eq_refl).
Qed.

(** X15. [validateConfig] returns exactly when every environment file
    exists, the validation library is absent, empty or one of [zod], [yup],
    [joi], [none], and the output path ends with [.d.ts]. *)
Theorem validateConfig_accepts config d :
  validateConfig config d = Ok tt
  ↔ Forall (λ f, fs_existsSync (path_resolve f) d = true) (envFiles config) ∧
    (∀ lib, cfg_validationLib config = Some lib → lib = "" ∨ lib ∈ validLibs) ∧
    GeneratorService.endsWith ".d.ts" (outputPath config) = true.
Proof.
  rewrite <- checkEnvFiles_ok, <- checkValidationLib_ok. unfold validateConfig.
  destruct (checkEnvFiles (envFiles config) d) as [[]|e1];
    [|by split; [|intros [? _]]].
  destruct (checkValidationLib (cfg_validationLib config)) as [[]|e2];
    [|by split; [|intros (_ & ? & _)]].
  unfold checkOutputPath.
  destruct (GeneratorService.endsWith ".d.ts" (outputPath config)); [done|].
  by split; [|intros (_ & _ & ?)].
Qed.

(** X16. The checks run in the order files, library, output path, and the
    first that fails decides the error.  A missing file is reported by the
    name given in the configuration, the first such file only, whatever the
    rest of the configuration; an unknown library is reported with the list
    of the four known ones, whatever the output path. *)
Theorem validateConfig_first_failure config d :
  (∀ before missing after,
     envFiles config = before ++ missing :: after →
     Forall (λ f, fs_existsSync (path_resolve f) d = true) before →
     fs_existsSync (path_resolve missing) d = false →
     validateConfig config d
     = Throw (new_Error ("Environment file not found: " +:+ missing))) ∧
  (∀ lib,
     Forall (λ f, fs_existsSync (path_resolve f) d = true) (envFiles config) →
     cfg_validationLib config = Some lib → lib ≠ "" → lib ∉ validLibs →
     validateConfig config d
     = Throw (new_Error ("Invalid validation library: " +:+ lib
                         +:+ ". Must be one of: zod, yup, joi, none"))) ∧
  (Forall (λ f, fs_existsSync (path_resolve f) d = true) (envFiles config) →
   (∀ lib, cfg_validationLib config = Some lib → lib = "" ∨ lib ∈ validLibs) →
   GeneratorService.endsWith ".d.ts" (outputPath config) = false →
   validateConfig config d = Throw (new_Error "Output path must end with .d.ts")).
Proof.
  unfold validateConfig. split_and!.
  - intros before missing after -> Hbefore Hmissing.
    by rewrite checkEnvFiles_first_missing.
  - intros lib Hfiles Hlib Hne Hout.
    apply checkEnvFiles_ok in Hfiles. rewrite Hfiles, Hlib. simpl.
    destruct (String.eqb_spec lib "") as [->|_]; [done|].
    by rewrite bool_decide_eq_false_2.
  - intros Hfiles Hlib Hends.
    apply checkEnvFiles_ok in Hfiles. apply checkValidationLib_ok in Hlib.
    rewrite Hfiles, Hlib. unfold checkOutputPath. by rewrite Hends.
Qed.

(** X17. For a configuration that [validateConfig] accepts, the runtime
    helper of [generate] goes to a file of its own: the output path is a stem
    followed by [.d.ts], the helper is written to the stem followed by [.js],
    and that is not the path of the declarations. *)
Theorem accepted_config_helper_path `{Unavailable} config d vars options :
  validateConfig config d = Ok tt →
  cfg_parseTypes config = Some true →
  ∃ stem,
    outputPath config = stem +:+ ".d.ts" ∧
    GeneratorService.writeRuntimeHelper config vars options
    = GeneratorService.writeFile (stem +:+ ".js")
        (generateRuntimeHelper vars options) ∧
    stem +:+ ".js" ≠ outputPath config.
Proof.
  intros Hvalid Htypes.
  assert (Hends : GeneratorService.endsWith ".d.ts" (outputPath config) = true).
  { unfold validateConfig, checkOutputPath in Hvalid.
    destruct (checkEnvFiles (envFiles config) d); [|done].
    destruct (checkValidationLib (cfg_validationLib config)); [|done].
    by destruct (GeneratorService.endsWith ".d.ts" (outputPath config)). }
  pose proof (endsWith_stem _ _ Hends) as Hstem.
  set (stem := substring 0 (String.length (outputPath config)
                            - String.length ".d.ts") (outputPath config)) in Hstem.
  exists stem. split_and!; [done| |].
  - unfold GeneratorService.writeRuntimeHelper, GeneratorService.helperPathOf.
    rewrite Htypes, Hends. simpl. done.
  - rewrite Hstem. intros Heq. apply (f_equal String.length) in Heq.
    rewrite !length_append in Heq. simpl in Heq. lia.
Qed.

End CliMore.

(** X15 on the in-memory host: the configuration of the helper run is
    accepted on the disk with [/work/.env]. *)
Lemma validateConfig_accepts_witness :
  @Cli.validateConfig Memory.node MemoryRuns.helperConfig Memory.overlayDisk = Ok tt.
Proof.
  apply (@validateConfig_accepts Memory.node). split_and!.
  - repeat constructor.
  - by intros lib [=].
  - by vm_compute.
Defined.

(** X16 on the in-memory host: [.env.local] is missing, and [bogus] is no
    library. *)
Lemma validateConfig_first_failure_witness :
  @Cli.validateConfig Memory.node Memory.overlayConfig Memory.overlayDisk
  = Throw (new_Error "Environment file not found: .env.local") ∧
  @Cli.validateConfig Memory.node MemoryRuns.bogusConfig Memory.overlayDisk
  = Throw (new_Error
             "Invalid validation library: bogus. Must be one of: zod, yup, joi, none").
Proof.
  split.
  - destruct (@validateConfig_first_failure Memory.node
                Memory.overlayConfig Memory.overlayDisk) as (Hmissing & _).
    apply (Hmissing [".env"] ".env.local" []); [done|by repeat constructor|done].
  - destruct (@validateConfig_first_failure Memory.node
                MemoryRuns.bogusConfig Memory.overlayDisk) as (_ & Hlib & _).
    apply (Hlib "bogus"); [by repeat constructor|done|done|].
    apply (bool_decide_eq_false_1 _). vm_compute. reflexivity.
Defined.

(** X17 on the in-memory host. *)
Lemma accepted_config_helper_path_witness :
  @Cli.validateConfig Memory.node MemoryRuns.helperConfig Memory.overlayDisk = Ok tt ∧
  ∃ stem,
    outputPath MemoryRuns.helperConfig = stem +:+ ".d.ts" ∧
    @GeneratorService.writeRuntimeHelper Memory.node Memory.blank
      MemoryRuns.helperConfig [] (mkGeneratorOptions true "none" [] false)
    = @GeneratorService.writeFile Memory.node (stem +:+ ".js") "" ∧
    stem +:+ ".js" ≠ outputPath MemoryRuns.helperConfig.
Proof.
  assert (Hvalid : @Cli.validateConfig Memory.node
                     MemoryRuns.helperConfig Memory.overlayDisk = Ok tt)
    by by vm_compute.
  split; [exact Hvalid|].
  apply (@accepted_config_helper_path Memory.node Memory.blank
           MemoryRuns.helperConfig Memory.overlayDisk [] _ Hvalid).
  reflexivity.
Defined.

(** X18 for the service of that run: it is stopped and started again. *)
Lemma service_stop_then_watch_again_witness :
  FileWatcher.watcher
    (ServiceWatch.fileWatcher
       (@ServiceWatch.watch Memory.node Memory.blank
          MemoryRuns.helperConfig MemoryRuns.freshService).2) = Some 0 ∧
  ServiceWatch.isWatching
    (ServiceWatch.stopWatchResume
       (ServiceWatch.stopWatchBegin
          (@ServiceWatch.watch Memory.node Memory.blank
             MemoryRuns.helperConfig MemoryRuns.freshService).2)) = false.
Proof.
  assert (Hw : FileWatcher.watcher
                 (ServiceWatch.fileWatcher
                    (@ServiceWatch.watch Memory.node Memory.blank
                       MemoryRuns.helperConfig MemoryRuns.freshService).2) = Some 0).
  { vm_compute. reflexivity. }
  split; [exact Hw|].
  destruct (@service_stop_then_watch_again Memory.node Memory.blank
              MemoryRuns.helperConfig _ 0 Hw) as (_ & _ & Hstopped & _).
  exact Hstopped.
Defined.
